(** * LinkedInJobsService: the application workflow engine

    A shallow embedding of [src/services/linked-in-job.service.ts], with
    [LoggerService] of [src/utils/logger.util.ts] and
    [generateQueryWithLocation] of [src/main.ts].

    The service drives a browser page.  Everything the page answers (does a
    selector appear, does a click succeed, what does the progress bar read)
    is taken from an oracle, so that a statement quantified over oracles
    covers every behaviour of the job board.  The service itself is
    deterministic: it is embedded as state-passing code over the in-memory
    ledger [appliedJobs], what the ledger file holds when the run starts,
    and a trace of the page actions, file accesses and log lines it
    performs. *)

From Stdlib Require Import List String Ascii ZArith Bool Arith Lia.
From Equations Require Import Equations.
Import ListNotations.

Local Open Scope string_scope.
Local Open Scope list_scope.
Local Open Scope Z_scope.

(** ** Strings

    Titles, companies, descriptions and keywords are [string]s: sequences
    of characters that the service compares and searches character by
    character, as JavaScript does code unit by code unit; nothing below
    depends on how many characters there are.  The service lower-cases
    text with [String.prototype.toLocaleLowerCase], whose answer depends
    on the Unicode tables and on the locale of the host: the service is
    embedded over an arbitrary [toLocaleLowerCase] (section [Host]).
    [asciiLowerCase] below, which maps the letters A to Z and leaves the
    rest, stands for it in the examples, whose text is ASCII. *)

Module Str.

Definition asciiLowerChar (c : ascii) : ascii :=
  let n := nat_of_ascii c in
  if (andb (65 <=? n)%nat (n <=? 90)%nat) then ascii_of_nat (n + 32) else c.

Fixpoint asciiLowerCase (s : string) : string :=
  match s with
  | EmptyString => EmptyString
  | String c s' => String (asciiLowerChar c) (asciiLowerCase s')
  end.

(** [s.includes(t)]: [t] starts at some position of [s]. *)
Fixpoint includes (s t : string) : bool :=
  String.prefix t s ||
  match s with
  | EmptyString => false
  | String _ s' => includes s' t
  end.

(** JavaScript truthiness of a string: only the empty string is falsy. *)
Definition truthy (s : string) : bool :=
  match s with
  | EmptyString => false
  | String _ _ => true
  end.

End Str.

(** ** The text of a details element (the callback of [loadJobDetails])

    [textContent?.replace(/\s+/g, " ").trim()].  A JavaScript string is a
    sequence of UTF-16 code units, here numbers.  The class [\s] of a
    regular expression and the white space of [trim] are the same set: the
    WhiteSpace and LineTerminator code points of ECMAScript, each of which
    is one code unit. *)

Module Text.

(** The class [\s], by ranges of code units. *)
Definition isWhiteSpace (c : N) : bool :=
  ((9 <=? c) && (c <=? 13) || (c =? 32) || (c =? 160) || (c =? 5760)
   || (8192 <=? c) && (c <=? 8202) || (8232 <=? c) && (c <=? 8233)
   || (c =? 8239) || (c =? 8287) || (c =? 12288) || (c =? 65279))%N.
Arguments isWhiteSpace : simpl never.

Definition space : N := 32%N.

(** [replace(/\s+/g, " ")]: every maximal run of white space becomes one
    space; [inRun] tells that the code unit before was white space. *)
Fixpoint collapseFrom (inRun : bool) (s : list N) : list N :=
  match s with
  | [] => []
  | c :: s' =>
      if isWhiteSpace c then
        if inRun then collapseFrom true s' else space :: collapseFrom true s'
      else c :: collapseFrom false s'
  end.

Definition collapse (s : list N) : list N := collapseFrom false s.

Fixpoint trimStart (s : list N) : list N :=
  match s with
  | [] => []
  | c :: s' => if isWhiteSpace c then trimStart s' else s
  end.

Definition isEmpty (s : list N) : bool :=
  match s with
  | [] => true
  | _ :: _ => false
  end.

Fixpoint trimEnd (s : list N) : list N :=
  match s with
  | [] => []
  | c :: s' =>
      let r := trimEnd s' in
      if isWhiteSpace c && isEmpty r then [] else c :: r
  end.

(** [String.prototype.trim] *)
Definition trim (s : list N) : list N := trimEnd (trimStart s).

Definition normalize (s : list N) : list N := trim (collapse s).

(** The white space of ECMAScript, code point by code point: tab, line
    feed, vertical tab, form feed, carriage return, space, no-break space,
    ogham space mark, the spaces U+2000 to U+200A, line separator,
    paragraph separator, narrow no-break space, medium mathematical space,
    ideographic space and the byte order mark. *)
Definition whiteSpaceCodes : list N :=
  [9; 10; 11; 12; 13; 32; 160; 5760;
   8192; 8193; 8194; 8195; 8196; 8197; 8198; 8199; 8200; 8201; 8202;
   8232; 8233; 8239; 8287; 12288; 65279]%N.

Definition white (c : N) : bool := existsb (N.eqb c) whiteSpaceCodes.
Arguments white : simpl never.

(** The code units of a text that are not white space, in order. *)
Fixpoint inked (s : list N) : list N :=
  match s with
  | [] => []
  | c :: s' => if white c then inked s' else c :: inked s'
  end.

(** Words separated by single spaces: the only white space is the space
    U+0020, never first, never last, never twice in a row.
    [afterSpace] tells that a space may not come next. *)
Fixpoint tidyFrom (afterSpace : bool) (s : list N) : bool :=
  match s with
  | [] => true
  | c :: s' =>
      if white c then
        (c =? 32)%N && negb afterSpace && negb (isEmpty s') && tidyFrom true s'
      else tidyFrom false s'
  end.

Definition tidy (s : list N) : bool := tidyFrom true s.

(** As [tidyFrom], without the condition on the last code unit. *)
Fixpoint spacedFrom (afterSpace : bool) (s : list N) : bool :=
  match s with
  | [] => true
  | c :: s' =>
      if white c then
        (c =? 32)%N && negb afterSpace && spacedFrom true s'
      else spacedFrom false s'
  end.

End Text.

(** ** [LoggerService] of [utils/logger.util.ts] *)

Module Logger.

Record LoggerService := mkLogger {
  logLevel : Z;
  loggerName : string
}.

(** [new LoggerService(loggerName)]: the level starts at 2. *)
Definition create (name : string) : LoggerService := mkLogger 2 name.

Definition setLogLevel (l : LoggerService) (level : Z) : LoggerService :=
  mkLogger level (loggerName l).

Definition logLevelMap (level : Z) : option string :=
  match level with
  | 0 => Some "ERROR"
  | 1 => Some "WARN"
  | 2 => Some "INFO"
  | 3 => Some "DEBUG"
  | 4 => Some "TRACE"
  | _ => None
  end.

(** One call of [console.log]: the formatted text, then the optional
    parameters as they were given. *)
Record line (P : Type) := mkLine {
  lineText : string;
  lineParams : list P
}.
Arguments mkLine {P} lineText lineParams.
Arguments lineText {P} l.
Arguments lineParams {P} l.

Definition format (l : LoggerService) (message : string) (level : Z) : string :=
  ("[" ++ match logLevelMap level with Some name => name | None => "INFO" end
       ++ "]  " ++ loggerName l ++ " - " ++ message)%string.

(** [log(message, level, ...optionalParams)]: what it prints. *)
Definition log {P} (l : LoggerService) (message : string) (level : Z) (params : list P)
    : list (line P) :=
  if level <=? logLevel l then [mkLine (format l message level) params] else [].

Inductive method := error | warn | info | debug | trace.

Definition levelOf (m : method) : Z :=
  match m with
  | error => 0
  | warn => 1
  | info => 2
  | debug => 3
  | trace => 4
  end.

(** A call of one of the five public methods. *)
Record call (P : Type) := mkCall {
  callMethod : method;
  callMessage : string;
  callParams : list P
}.
Arguments mkCall {P} callMethod callMessage callParams.
Arguments callMethod {P} c.
Arguments callMessage {P} c.
Arguments callParams {P} c.

Definition say {P} (l : LoggerService) (c : call P) : list (line P) :=
  log l (callMessage c) (levelOf (callMethod c)) (callParams c).

(** What a sequence of calls prints, in order. *)
Definition sayAll {P} (l : LoggerService) (calls : list (call P)) : list (line P) :=
  flat_map (say l) calls.

Definition audible {P} (level : Z) (c : call P) : bool :=
  levelOf (callMethod c) <=? level.

End Logger.

(** ** Data model *)

(** [interface IAppliedJob] *)
Record IAppliedJob := mkApplied {
  title : string;
  company : string;
  appliedSuccessfully : bool
}.

(** [interface IApplyForJobOptions]; both fields are optional in the source. *)
Record IApplyForJobOptions := mkOptions {
  blackListCompanies : option (list string);
  descriptionKeywords : option (list string)
}.

(** What [loadJobDetails] extracts: each field is [undefined] when its
    element is missing, a (whitespace-collapsed, trimmed) string otherwise. *)
Record JobDetails := mkDetails {
  d_title : option string;
  d_company : option string;
  d_description : option string
}.

(** Truthiness of an optional string ([undefined] and the empty string are falsy). *)
Definition present (o : option string) : bool :=
  match o with
  | Some s => Str.truthy s
  | None => false
  end.

Definition text (o : option string) : string :=
  match o with
  | Some s => s
  | None => EmptyString
  end.

Definition optBind {A B} (o : option A) (f : A -> option B) : option B :=
  match o with
  | Some a => f a
  | None => None
  end.

(** ** Screening (lines 229-276 of [applyForJob]) *)

Inductive reason :=
| IncompleteDetails
| AlreadyAppliedInLedger
| Blacklisted
| KeywordMismatch.

Inductive decision :=
| Accept
| Skip (r : reason).

(** The callback of [this.appliedJobs.find]: strict equality on both strings. *)
Definition sameJob (t c : string) (a : IAppliedJob) : bool :=
  String.eqb (title a) t && String.eqb (company a) c.

(** Lines 238-251: the [length > 0] guard and the [find]. *)
Definition findApplied (ledger : list IAppliedJob) (t c : string) : option IAppliedJob :=
  if (0 <? List.length ledger)%nat then find (sameJob t c) ledger else None.

(** [Array.prototype.includes] on an array of strings. *)
Definition arrayIncludes (l : list string) (s : string) : bool :=
  existsb (String.eqb s) l.

(** Lines 253-256: [options?.blackListCompanies?.includes(company)]. *)
Definition isBlacklisted (options : option IApplyForJobOptions) (c : string) : bool :=
  match options with
  | Some o =>
      match blackListCompanies o with
      | Some l => arrayIncludes l c
      | None => false
      end
  | None => false
  end.

(** ** The screening rules in the words of the specification

    Case is ignored the way the host does it: [lower] stands for
    [String.prototype.toLocaleLowerCase]. *)

Module Spec.

(** [keyword] is read in [description] from position [i] on. *)
Definition occursAt (description keyword : string) (i : nat) : bool :=
  String.eqb (substring i (String.length keyword) description) keyword.

(** [keyword] is a substring of [description]: it is read from one of the
    positions 0 to the length of [description]. *)
Definition substringOf (description keyword : string) : bool :=
  existsb (occursAt description keyword) (seq 0 (S (String.length description))).

(** [keyword] occurs in [description] once both are lower-cased by
    [lower]. *)
Definition occurs (lower : string -> string) (description keyword : string) : bool :=
  substringOf (lower description) (lower keyword).

Definition incomplete (d : JobDetails) : bool :=
  negb (present (d_title d) && present (d_company d) && present (d_description d)).

Definition inLedger (ledger : list IAppliedJob) (d : JobDetails) : bool :=
  existsb (fun a => String.eqb (title a) (text (d_title d))
                    && String.eqb (company a) (text (d_company d))) ledger.

Definition blacklisted (o : option IApplyForJobOptions) (d : JobDetails) : bool :=
  match optBind o blackListCompanies with
  | Some l => existsb (String.eqb (text (d_company d))) l
  | None => false
  end.

Definition noneOccurs (lower : string -> string) (d : JobDetails) (ks : list string) : bool :=
  forallb (fun k => negb (occurs lower (text (d_description d)) k)) ks.

(** The keyword rule as the specification words it: a non-empty list,
    none of whose entries occurs. *)
Definition keywordRule (lower : string -> string) (o : option IApplyForJobOptions)
    (d : JobDetails) : bool :=
  match optBind o descriptionKeywords with
  | Some (k :: ks) => noneOccurs lower d (k :: ks)
  | _ => false
  end.

(** The keyword rule for a list that is supplied, empty or not. *)
Definition keywordRuleSupplied (lower : string -> string) (o : option IApplyForJobOptions)
    (d : JobDetails) : bool :=
  match optBind o descriptionKeywords with
  | Some ks => noneOccurs lower d ks
  | None => false
  end.

(** Rules in a fixed order, the first that matches wins, [Accept] when
    none does. *)
Fixpoint firstMatch (rules : list (bool * reason)) : decision :=
  match rules with
  | [] => Accept
  | (matches, r) :: rest => if matches then Skip r else firstMatch rest
  end.

Definition screening (keywords : option IApplyForJobOptions -> JobDetails -> bool)
    (d : JobDetails) (ledger : list IAppliedJob) (o : option IApplyForJobOptions) : decision :=
  firstMatch [ (incomplete d, IncompleteDetails);
               (inLedger ledger d, AlreadyAppliedInLedger);
               (blacklisted o d, Blacklisted);
               (keywords o d, KeywordMismatch) ].

End Spec.

(** ** JavaScript numbers, as far as [parseInt] and the comparisons of the
    stepping loop need them *)

Inductive jsnum :=
| Num (z : Z)
| NaN.

(** [a === b] on numbers ([NaN] is equal to nothing). *)
Definition strictEq (a b : jsnum) : bool :=
  match a, b with
  | Num x, Num y => x =? y
  | _, _ => false
  end.

(** [a != b] on numbers. *)
Definition notEq (a b : jsnum) : bool := negb (strictEq a b).

(** [a < b] on numbers (false as soon as one side is [NaN]). *)
Definition lessThan (a b : jsnum) : bool :=
  match a, b with
  | Num x, Num y => x <? y
  | _, _ => false
  end.

(** The [aria-valuenow] attribute of the progress bar as the driver uses it:
    [Falsy] is [null] or the empty string, [Text n] a non-empty string on
    which [parseInt] gives [n]. *)
Inductive ariaValue :=
| Falsy
| Text (n : jsnum).

(** ** Queries and [buildUrl] *)

(** The enums of [src/enums] are string enums; their members reach the
    service as plain strings. *)
Record IFilters := mkFilters {
  relevance : option string;
  onSiteOrRemote : option (string + list string);
  timeFilter : option string;
  simplifiedJob : option bool;
  f_descriptionKeywords : option (list string)
}.

(** [interface IQueryOptions], with the fields the service reads. *)
Record IQueryOptions := mkQueryOptions {
  location : option string;
  filters : option IFilters;
  q_blackListCompanies : option (list string)
}.

Record IQuery := mkQuery {
  query : option string;
  options : option IQueryOptions
}.

(** A search URL is [https://www.linkedin.com/jobs/search/] with these
    search parameters, in order. *)
Definition Url := list (string * string).

Definition setParam (name : string) (value : option string) (url : Url) : Url :=
  if present value then url ++ [(name, text value)] else url.

Definition joinComma (l : list string) : string := String.concat "," l.

Definition buildUrl (q : option string) (o : option IQueryOptions) : Url :=
  let fs := optBind o filters in
  let url := setParam "keywords" q [] in
  let url := setParam "location" (optBind o location) url in
  let url := setParam "sortBy" (optBind fs relevance) url in
  let url := setParam "f_TPR" (optBind fs timeFilter) url in
  let url :=
    match optBind fs onSiteOrRemote with
    | Some (inl s) => setParam "f_WT" (Some s) url
    | Some (inr l) => url ++ [("f_WT", joinComma l)]
    | None => url
    end in
  match optBind fs simplifiedJob with
  | Some true => url ++ [("f_AL", "true")]
  | _ => url
  end.

(** ** Page actions, log lines and the trace *)

(** The [selectors] object; [jobsResumeItemButton] is the selector
    [`${selectors.jobsResumeItem} button`] built in [applyForJob]. *)
Inductive selector :=
| container | jobs | details | jobApply | jobApllyButton | jobsResumeItem
| jobsResumeItemButton | jobApplyClose | jobApplyPorcentBar
| confirmCancelApplyButton | paginationNextBtn.

Inductive logline :=
| OpeningQueries (n : nat)
| Opening (url : Url)
| NoJobsFound
| ErrorOnApplyForJob
| ErrorOnQuery
| TryingNextPage
| GoingToPage (n : nat)
| ErrorNextPage
| FoundJobs (n : option nat)
| LoadingJobDetails
| NoJobDetailsFound
| TitleOrCompanyNotFound
| JobAlreadyAppliedWith (succeeded : bool)
| BlacklistedCompany
| NoKeyword
| JobAlreadyApplied
| ApplyingForJob
| ProgressBarIsZero
| SelectingResume
| NoResumeFound
| FailedToApply
| ClosingStuck
| AppliedForJob
| ClosingJobApply.

Inductive event :=
| ReadFile
| WriteFile (content : list IAppliedJob)
| Goto (url : Url)
| WaitForSelector (s : selector)
| Click (s : selector)
| Select (s : selector)
| SelectAll (s : selector)
| ScrollToEnd
| ClickListing (handle : nat)
| ReadDetails
| ReadProgress
| Log (l : logline).

(** The service's state: the [appliedJobs] field, what the read at the head
    of [init] finds in the file at [APPLIED_JOBS_PATH], and the trace of
    what the service has done so far.  [file] is [None] when [fs.readFile]
    rejects or [JSON.parse] throws, and the array of records otherwise; a
    content that parses to something other than an array of records is not
    embedded. *)
Record state := mkState {
  appliedJobs : list IAppliedJob;
  file : option (list IAppliedJob);
  trace : list event
}.

(** ** The effect monad

    An [async] function either returns, rejects ([Threw]) or is still
    running when the fuel of the stepping loop is used up ([Spins]); in each
    case the state reached is kept. *)

Inductive outcome (A : Type) :=
| Ret (a : A)
| Threw
| Spins.
Arguments Ret {A} a.
Arguments Threw {A}.
Arguments Spins {A}.

Definition M (A : Type) := state -> state * outcome A.

Definition ret {A} (a : A) : M A := fun st => (st, Ret a).

Definition throw {A} : M A := fun st => (st, Threw).

Definition spin {A} : M A := fun st => (st, Spins).

Definition bind {A B} (m : M A) (f : A -> M B) : M B :=
  fun st =>
    match m st with
    | (st', Ret a) => f a st'
    | (st', Threw) => (st', Threw)
    | (st', Spins) => (st', Spins)
    end.

Declare Scope monad_scope.
Delimit Scope monad_scope with monad.
Notation "x <- m ;; k" := (bind m (fun x => k))
  (at level 61, m at next level, right associativity) : monad_scope.
Notation "m ;; k" := (bind m (fun _ => k))
  (at level 61, right associativity) : monad_scope.
Local Open Scope monad_scope.

Definition emit (e : event) : M unit :=
  fun st => (mkState (appliedJobs st) (file st) (trace st ++ [e]), Ret tt).

Definition log (l : logline) : M unit := emit (Log l).

Definition getAppliedJobs : M (list IAppliedJob) :=
  fun st => (st, Ret (appliedJobs st)).

(** [try { m } catch (error) { h }] *)
Definition tryCatch {A} (m : M A) (h : M A) : M A :=
  fun st =>
    match m st with
    | (st', Threw) => h st'
    | other => other
    end.

(** A call whose promise is not awaited: a rejection never reaches the
    caller (what the host does with an unhandled rejection is not
    embedded).  The call runs beside the caller from its first [await] on;
    the trace places all its page actions at the call, which is one of the
    possible schedules: the statements below that name an action of a
    detached call state its presence, not its place among the caller's
    later actions. *)
Definition detached (m : M unit) : M unit :=
  fun st =>
    match m st with
    | (st', Threw) => (st', Ret tt)
    | other => other
    end.

(** An awaited page action: it is performed, and rejects when the page
    does not answer ([ok = false]). *)
Definition pageOp (e : event) (ok : bool) : M unit :=
  emit e ;; if ok then ret tt else throw.

(** What an awaited page action that yields a value does. *)
Inductive answer (A : Type) :=
| Throws
| Gives (a : A).
Arguments Throws {A}.
Arguments Gives {A} a.

Definition pageGet {A} (e : event) (a : answer A) : M A :=
  emit e ;; match a with Gives x => ret x | Throws => throw end.

(** ** The page oracle

    One flag per awaited page action (does it resolve?) and one answer per
    page read, at each place of the service where the page is asked. *)

(** [closeApply]: its two or four page actions. *)
Record closeEnv := mkClose {
  c_wait : bool;
  c_click : bool;
  c_waitConfirm : bool;
  c_clickConfirm : bool
}.

(** One turn of the stepping loop of [applyForJob]. *)
Record stepEnv := mkStep {
  s_waitBar : bool;
  s_read : answer ariaValue;
  s_close : closeEnv;
  s_waitPrimary : bool;
  s_clickPrimary : bool
}.

(** One listing of a results page, as [applyForJob] meets it; [l_handle]
    names the element handle that [getJobs] hands over. *)
Record listingEnv := mkListing {
  l_handle : nat;
  l_click : bool;
  l_waitDetails : bool;
  l_details : answer (option JobDetails);
  l_clickApply : bool;
  l_waitPrimary : bool;
  l_clickPrimary : bool;
  l_waitBar : bool;
  l_read : answer ariaValue;
  l_closeZero : closeEnv;
  l_waitResume : bool;
  l_clickResume : bool;
  l_clickAfterResume : bool;
  l_closeNoResume : closeEnv;
  l_steps : nat -> stepEnv;
  l_closeDone : closeEnv;
  l_closeError : closeEnv
}.

(** One query of one turn of the page loop, as [getJobs] meets it. *)
Record queryEnv := mkQueryEnv {
  q_waitContainer : bool;
  q_container : answer bool;
  q_scroll : bool;
  q_jobs : answer (option (list listingEnv))
}.

(** The next-page step of one turn of the page loop. *)
Record nextEnv := mkNext {
  n_button : answer bool;
  n_click : bool;
  n_wait : bool
}.

(** A whole run: the page's answers by turn of the page loop (the value of
    [page] at that turn) and position of the query in [queries]. *)
Record runEnv := mkRun {
  r_visit : nat -> nat -> queryEnv;
  r_next : nat -> nextEnv
}.

(** ** The host

    What [String.prototype.toLocaleLowerCase] answers is the host's affair
    (its Unicode tables, its locale).  Everything from here to the end of
    [Host] is about the service on any host. *)

Section Host.

Variable toLocaleLowerCase : string -> string.

(** The callback of [descriptionKeywords.some]. *)
Definition keywordOccurs (description keyword : string) : bool :=
  Str.includes (toLocaleLowerCase description) (toLocaleLowerCase keyword).

(** Lines 261-269: an array is truthy whatever its length, so the test is
    made as soon as [descriptionKeywords] is supplied. *)
Definition keywordMismatch (options : option IApplyForJobOptions) (description : string) : bool :=
  match options with
  | Some o =>
      match descriptionKeywords o with
      | Some ks => negb (existsb (keywordOccurs description) ks)
      | None => false
      end
  | None => false
  end.

Definition shouldApply (details : JobDetails) (ledger : list IAppliedJob)
    (options : option IApplyForJobOptions) : decision :=
  if negb (present (d_title details)) || negb (present (d_company details))
     || negb (present (d_description details))
  then Skip IncompleteDetails
  else
    match findApplied ledger (text (d_title details)) (text (d_company details)) with
    | Some _ => Skip AlreadyAppliedInLedger
    | None =>
        if isBlacklisted options (text (d_company details))
        then Skip Blacklisted
        else if keywordMismatch options (text (d_description details))
        then Skip KeywordMismatch
        else Accept
    end.

(** ** The service

    The functions below follow the source line by line.  [this.page] is set
    by the constructor and never cleared, so every [this.page?.] call is
    made; the [logger.debug] lines are left out of the trace; a call that
    the source does not [await] is wrapped in [detached]. *)

(** [writeAppliedJobs]: the push, then [fs.writeFile] called on the whole
    array; the [WriteFile] event carries the content handed to it.  No call
    site awaits the promise, so the service never sees whether or when the
    file system completes the write: that is not embedded, and [file] stays
    what the read at the head of [init] found. *)
Definition writeAppliedJobs (appliedJob : IAppliedJob) : M unit :=
  fun st =>
    let all := appliedJobs st ++ [appliedJob] in
    (mkState all (file st) (trace st ++ [WriteFile all]), Ret tt).

(** [closeApply(confirm)] *)
Definition closeApply (c : closeEnv) (confirm : bool) : M unit :=
  pageOp (WaitForSelector jobApplyClose) (c_wait c) ;;
  pageOp (Click jobApplyClose) (c_click c) ;;
  if confirm then
    pageOp (WaitForSelector confirmCancelApplyButton) (c_waitConfirm c) ;;
    pageOp (Click confirmCancelApplyButton) (c_clickConfirm c)
  else ret tt.

(** [loadJobDetails] *)
Definition loadJobDetails (l : listingEnv) : M (option JobDetails) :=
  log LoadingJobDetails ;;
  pageOp (WaitForSelector details) (l_waitDetails l) ;;
  pageGet ReadDetails (l_details l).

Definition failedRecord (jd : JobDetails) : IAppliedJob :=
  mkApplied (text (d_title jd)) (text (d_company jd)) false.

Definition succeededRecord (jd : JobDetails) : IAppliedJob :=
  mkApplied (text (d_title jd)) (text (d_company jd)) true.

(** Lines 363-364, the end of a turn of the stepping loop. *)
Definition advance (s : stepEnv) : M unit :=
  pageOp (WaitForSelector jobApllyButton) (s_waitPrimary s) ;;
  pageOp (Click jobApllyButton) (s_clickPrimary s).

(** Lines 328-365, the [do ... while (porcentNumber < 100)] loop, from its
    turn [i] on with the current value of [porcentNumber]; it yields the
    value of [porcentNumber] on leaving the loop. *)
Fixpoint stepping (fuel : nat) (steps : nat -> stepEnv) (jd : JobDetails)
    (i : nat) (porcentNumber : jsnum) : M jsnum :=
  match fuel with
  | O => spin
  | S fuel' =>
      let s := steps i in
      let again (porcentNumber : jsnum) : M jsnum :=
        advance s ;;
        if lessThan porcentNumber (Num 100)
        then stepping fuel' steps jd (S i) porcentNumber
        else ret porcentNumber in
      pageOp (WaitForSelector jobApplyPorcentBar) (s_waitBar s) ;;
      porcentValue <- pageGet ReadProgress (s_read s) ;;
      match porcentValue with
      | Text value =>
          if notEq value (Num 0) && strictEq value porcentNumber then
            log FailedToApply ;;
            detached (writeAppliedJobs (failedRecord jd)) ;;
            log ClosingStuck ;;
            closeApply (s_close s) true ;;
            ret porcentNumber
          else again value
      | Falsy => again porcentNumber
      end
  end.

(** Lines 367-380: the completion test after the stepping loop. *)
Definition complete (l : listingEnv) (jd : JobDetails) (porcentNumber : jsnum) : M unit :=
  if strictEq porcentNumber (Num 100) then
    log AppliedForJob ;;
    detached (writeAppliedJobs (succeededRecord jd)) ;;
    log ClosingJobApply ;;
    closeApply (l_closeDone l) false
  else ret tt.

(** Lines 311-381 of [applyForJob]: resume selection, the stepping loop and
    the completion test. *)
Definition selectResumeAndStep (fuel : nat) (l : listingEnv) (jd : JobDetails) : M unit :=
  tryCatch
    (log SelectingResume ;;
     pageOp (WaitForSelector jobsResumeItem) (l_waitResume l) ;;
     pageOp (Click jobsResumeItemButton) (l_clickResume l) ;;
     pageOp (Click jobApllyButton) (l_clickAfterResume l))
    (log NoResumeFound ;;
     detached (writeAppliedJobs (failedRecord jd)) ;;
     detached (closeApply (l_closeNoResume l) true)) ;;
  porcentNumber <- stepping fuel (l_steps l) jd 0%nat (Num 0) ;;
  complete l jd porcentNumber.

(** Lines 278-309 of [applyForJob]: the apply control, the wizard's primary
    action and the first progress reading. *)
Definition startWizard (fuel : nat) (l : listingEnv) (jd : JobDetails) : M unit :=
  clicked <- tryCatch (pageOp (Click jobApply) (l_clickApply l) ;; ret true)
                      (log JobAlreadyApplied ;; ret false) ;;
  if clicked then
    log ApplyingForJob ;;
    pageOp (WaitForSelector jobApllyButton) (l_waitPrimary l) ;;
    pageOp (Click jobApllyButton) (l_clickPrimary l) ;;
    pageOp (WaitForSelector jobApplyPorcentBar) (l_waitBar l) ;;
    porcentValue <- pageGet ReadProgress (l_read l) ;;
    match porcentValue with
    | Text value =>
        if strictEq value (Num 0) then
          detached (writeAppliedJobs (failedRecord jd)) ;;
          log ProgressBarIsZero ;;
          detached (closeApply (l_closeZero l) true)
        else selectResumeAndStep fuel l jd
    | Falsy => selectResumeAndStep fuel l jd
    end
  else ret tt.

Definition logSkip (ledger : list IAppliedJob) (jd : JobDetails) (r : reason) : M unit :=
  match r with
  | IncompleteDetails => log TitleOrCompanyNotFound
  | AlreadyAppliedInLedger =>
      match findApplied ledger (text (d_title jd)) (text (d_company jd)) with
      | Some a => log (JobAlreadyAppliedWith (appliedSuccessfully a))
      | None => ret tt
      end
  | Blacklisted => log BlacklistedCompany
  | KeywordMismatch => log NoKeyword
  end.

(** [applyForJob(job, options)] *)
Definition applyForJob (fuel : nat) (l : listingEnv) (options : option IApplyForJobOptions) : M unit :=
  pageOp (ClickListing (l_handle l)) (l_click l) ;;
  jobDetails <- loadJobDetails l ;;
  match jobDetails with
  | None => log NoJobDetailsFound
  | Some jd =>
      ledger <- getAppliedJobs ;;
      match shouldApply jd ledger options with
      | Skip r => logSkip ledger jd r
      | Accept => startWizard fuel l jd
      end
  end.

(** Lines 129-141 of [getJobs]: the options handed to [applyForJob]. *)
Definition applyOptions (q : IQuery) : option IApplyForJobOptions :=
  Some (mkOptions
          (match optBind (options q) q_blackListCompanies with
           | Some l => Some l
           | None => Some []
           end)
          (optBind (optBind (options q) filters) f_descriptionKeywords)).

(** The [for (const job of jobs)] loop of [getJobs]. *)
Fixpoint applyForJobs (fuel : nat) (jobs : list listingEnv)
    (options : option IApplyForJobOptions) : M unit :=
  match jobs with
  | [] => ret tt
  | job :: rest =>
      tryCatch (applyForJob fuel job options)
               (log ErrorOnApplyForJob ;;
                detached (closeApply (l_closeError job) true)) ;;
      applyForJobs fuel rest options
  end.

(** [loadJobs] *)
Definition loadJobs (e : queryEnv) : M (option (list listingEnv)) :=
  found <- pageGet (SelectAll jobs) (q_jobs e) ;;
  log (FoundJobs (option_map (@List.length listingEnv) found)) ;;
  ret found.

(** The body of the [try] of [getJobs] for one query; [false] is the
    [return] of line 126, which leaves [getJobs]. *)
Definition openQuery (fuel : nat) (e : queryEnv) (q : IQuery) : M bool :=
  let url := buildUrl (query q) (options q) in
  log (Opening url) ;;
  emit (Goto url) ;;
  pageOp (WaitForSelector container) (q_waitContainer e) ;;
  jobsContainer <- pageGet (Select container) (q_container e) ;;
  (if jobsContainer then pageOp ScrollToEnd (q_scroll e) else ret tt) ;;
  found <- loadJobs e ;;
  match found with
  | None => log NoJobsFound ;; ret false
  | Some found =>
      applyForJobs fuel found (applyOptions q) ;;
      ret true
  end.

(** The [for (const query of queries)] loop of [getJobs], from the query at
    position [j] on. *)
Fixpoint openQueries (fuel : nat) (visit : nat -> queryEnv) (j : nat)
    (queries : list IQuery) : M unit :=
  match queries with
  | [] => ret tt
  | q :: rest =>
      goOn <- tryCatch (openQuery fuel (visit j) q) (log ErrorOnQuery ;; ret true) ;;
      if goOn then openQueries fuel visit (S j) rest else ret tt
  end.

(** [getJobs(queries)]; [queries] is an array by its type. *)
Definition getJobs (fuel : nat) (visit : nat -> queryEnv) (queries : list IQuery) : M unit :=
  log (OpeningQueries (List.length queries)) ;;
  openQueries fuel visit 0%nat queries.

(** [fs.readFile] and [JSON.parse] at the head of [init]: the array read
    becomes the ledger in memory; the run rejects when there is none. *)
Definition readAppliedJobs : M unit :=
  fun st =>
    match file st with
    | Some content => (mkState content (file st) (trace st ++ [ReadFile]), Ret tt)
    | None => (mkState (appliedJobs st) (file st) (trace st ++ [ReadFile]), Threw)
    end.

(** How one turn of the [do ... while] of [init] ends: by the [break] of
    the [catch], or at the loop test with [nextPageBtn] found or not. *)
Inductive turnEnd :=
| Break
| Tested (nextPageBtn : bool).

(** Lines 84-96: the next-page step. *)
Definition nextPage (n : nextEnv) (page : nat) : M turnEnd :=
  tryCatch
    (log TryingNextPage ;;
     nextPageBtn <- pageGet (Select paginationNextBtn) (n_button n) ;;
     if (nextPageBtn : bool) then
       log (GoingToPage (page + 1)) ;;
       pageOp (Click paginationNextBtn) (n_click n) ;;
       pageOp (WaitForSelector container) (n_wait n) ;;
       ret (Tested true)
     else ret (Tested false))
    (log ErrorNextPage ;; ret Break).

(** One turn of the page loop: [getJobs], then the next-page step. *)
Definition turn (fuel : nat) (env : runEnv) (queries : list IQuery) (page : nat) : M turnEnd :=
  getJobs fuel (r_visit env page) queries ;;
  nextPage (r_next env page) page.

(** Lines 81-97: [do { ... } while (nextPageBtn && page < 5)], entered with
    the value [page] of the counter.  The counter is incremented in the turn
    exactly when the button is found. *)
Equations pageLoop (fuel : nat) (env : runEnv) (queries : list IQuery)
    (page : nat) (st : state) : state * outcome unit by wf (5 - page)%nat lt :=
  pageLoop fuel env queries page st with turn fuel env queries page st := {
    | (st', Ret (Tested true)) with lt_dec (S page) 5 := {
        | left _ := pageLoop fuel env queries (S page) st'
        | right _ := (st', Ret tt) }
    | (st', Ret _) := (st', Ret tt)
    | (st', Threw) := (st', Threw)
    | (st', Spins) := (st', Spins) }.
Next Obligation. clear pageLoop. destruct page as [|[|[|[|?]]]]; lia. Qed.

(** The service as constructed: no job recorded in memory, nothing done. *)
Definition initialState (content : option (list IAppliedJob)) : state :=
  mkState [] content [].

(** [init(queries)] *)
Definition init (fuel : nat) (env : runEnv) (queries : list IQuery) : M unit :=
  readAppliedJobs ;;
  pageLoop fuel env queries 1%nat.

(** ** Reading a trace *)

(** The terminal outcomes of the wizard, as the driver announces them in
    its log: [Stuck] is announced by the zero-progress warning of the first
    reading and by the stuck message of the stepping loop. *)
Inductive terminal :=
| Completed
| Stuck
| NoResumeAvailable
| AlreadyApplied.

Definition announces (e : event) : option terminal :=
  match e with
  | Log AppliedForJob => Some Completed
  | Log ProgressBarIsZero => Some Stuck
  | Log ClosingStuck => Some Stuck
  | Log NoResumeFound => Some NoResumeAvailable
  | Log JobAlreadyApplied => Some AlreadyApplied
  | _ => None
  end.

Fixpoint pick {A} (f : event -> option A) (evs : list event) : list A :=
  match evs with
  | [] => []
  | e :: rest =>
      match f e with
      | Some a => a :: pick f rest
      | None => pick f rest
      end
  end.

Definition terminals (evs : list event) : list terminal := pick announces evs.

(** The contents handed to [fs.writeFile], in order. *)
Definition written (evs : list event) : list (list IAppliedJob) :=
  pick (fun e => match e with WriteFile c => Some c | _ => None end) evs.

(** The progress readings taken, counted. *)
Definition readings (evs : list event) : nat :=
  List.length (pick (fun e => match e with ReadProgress => Some tt | _ => None end) evs).

(** The URLs navigated to, in order. *)
Definition navigations (evs : list event) : list Url :=
  pick (fun e => match e with Goto u => Some u | _ => None end) evs.

(** The calls of [getJobs], by their opening log line. *)
Definition rounds (evs : list event) : nat :=
  List.length (pick (fun e => match e with Log (OpeningQueries n) => Some n | _ => None end) evs).

(** The values the counter [page] is incremented to, as logged. *)
Definition pagesAnnounced (evs : list event) : list nat :=
  pick (fun e => match e with Log (GoingToPage n) => Some n | _ => None end) evs.

(** The reads of the ledger file, counted. *)
Definition loads (evs : list event) : nat :=
  List.length (pick (fun e => match e with ReadFile => Some tt | _ => None end) evs).

(** What is left of a trace after the first occurrence of a log line. *)
Fixpoint afterLog (l : logline -> bool) (evs : list event) : list event :=
  match evs with
  | [] => []
  | Log x :: rest => if l x then rest else afterLog l rest
  | _ :: rest => afterLog l rest
  end.

(** An event of the wizard and of the page actions around it: neither a
    load of the ledger, nor a navigation, nor the opening line of
    [getJobs], nor the announcement of a page. *)
Definition quiet (e : event) : bool :=
  match e with
  | ReadFile => false
  | Goto _ => false
  | Log (OpeningQueries _) => false
  | Log (GoingToPage _) => false
  | _ => true
  end.

(** Any event but a load of the ledger. *)
Definition noLoad (e : event) : bool :=
  match e with
  | ReadFile => false
  | _ => true
  end.

(** [persistsAll l evs l']: along [evs], every call of [fs.writeFile] is
    handed the ledger as it was before the call plus one record at its
    end; [l] is the ledger before [evs] and [l'] after. *)
Inductive persistsAll : list IAppliedJob -> list event -> list IAppliedJob -> Prop :=
| persists_done l : persistsAll l [] l
| persists_write l r evs l' :
    persistsAll (l ++ [r]) evs l' ->
    persistsAll l (WriteFile (l ++ [r]) :: evs) l'
| persists_other l e evs l' :
    (forall c, e <> WriteFile c) ->
    persistsAll l evs l' ->
    persistsAll l (e :: evs) l'.

(** [follows K st st']: [st'] is reached from [st] by events of kind [K]
    that only append to the ledger, each append handing the whole ledger
    to [fs.writeFile]. *)
Definition follows (K : event -> bool) (st st' : state) : Prop :=
  exists evs,
    trace st' = trace st ++ evs /\
    forallb K evs = true /\
    persistsAll (appliedJobs st) evs (appliedJobs st').

Definition sound (K : event -> bool) {A} (m : M A) : Prop :=
  forall st, follows K st (fst (m st)).

(** ** Page oracles used in the statements *)

Definition okClose : closeEnv := mkClose true true true true.

(** A turn of the stepping loop on which every page action resolves and the
    bar reads [v]. *)
Definition okStep (v : ariaValue) : stepEnv := mkStep true (Gives v) okClose true true.

(** The turns reading the integers of [vs] in order, then as [tail] says. *)
Definition readingSteps (vs : list Z) (tail : nat -> stepEnv) : nat -> stepEnv :=
  fun i =>
    match nth_error vs i with
    | Some v => okStep (Text (Num v))
    | None => tail (i - List.length vs)%nat
    end.

(** A listing on which every page action resolves, with its first reading
    and the turns of its stepping loop. *)
Definition okListing (jd : JobDetails) (first : ariaValue) (steps : nat -> stepEnv) : listingEnv :=
  mkListing 0 true true (Gives (Some jd)) true true true true (Gives first) okClose
            true true true okClose steps okClose okClose.

(** The wizard driven by a sequence of progress readings: the first is read
    on entering the wizard, the others in the stepping loop. *)
Definition wizardOn (first : Z) (others : list Z) (tail : nat -> stepEnv)
    (jd : JobDetails) : listingEnv :=
  okListing jd (Text (Num first)) (readingSteps others tail).

(** The same listing with no resume to select. *)
Definition withoutResume (l : listingEnv) : listingEnv :=
  mkListing (l_handle l) (l_click l) (l_waitDetails l) (l_details l) (l_clickApply l)
            (l_waitPrimary l) (l_clickPrimary l) (l_waitBar l) (l_read l)
            (l_closeZero l) false (l_clickResume l) (l_clickAfterResume l)
            (l_closeNoResume l) (l_steps l) (l_closeDone l) (l_closeError l).

(** The same listing behind another element handle. *)
Definition withHandle (h : nat) (l : listingEnv) : listingEnv :=
  mkListing h (l_click l) (l_waitDetails l) (l_details l) (l_clickApply l)
            (l_waitPrimary l) (l_clickPrimary l) (l_waitBar l) (l_read l)
            (l_closeZero l) (l_waitResume l) (l_clickResume l) (l_clickAfterResume l)
            (l_closeNoResume l) (l_steps l) (l_closeDone l) (l_closeError l).

Definition apiDev : JobDetails :=
  mkDetails (Some "API Dev") (Some "Acme") (Some "Node/AWS role").

Definition nodeQuery : IQuery :=
  mkQuery (Some "Node")
          (Some (mkQueryOptions None
                   (Some (mkFilters None None None (Some true) (Some ["Node"; "AWS"])))
                   (Some ["Toro"]))).

(** A results page without listings whose next-page control is there. *)
Definition emptyPages : runEnv :=
  mkRun (fun _ _ => mkQueryEnv true (Gives true) true (Gives (Some [])))
        (fun _ => mkNext (Gives true) true true).

(** ** The verdict on a sequence of progress readings, in the words of the
    specification

    [previous] is the reading of the turn before in the stepping loop, if
    there is one; the reading taken on entering the wizard is not one of
    them.  No verdict is given on a sequence that ends before the wizard
    does, nor on a reading above 100. *)
Fixpoint verdictFrom (previous : option Z) (others : list Z) : option terminal :=
  match others with
  | [] => None
  | v :: rest =>
      if negb (v =? 0) && match previous with Some p => v =? p | None => false end
      then Some Stuck
      else if v =? 100 then Some Completed
      else if 100 <? v then None
      else verdictFrom (Some v) rest
  end.

Definition verdict (first : Z) (others : list Z) : option terminal :=
  if first =? 0 then Some Stuck else verdictFrom None others.

(** The record that goes with a verdict. *)
Definition recordOf (jd : JobDetails) (t : terminal) : IAppliedJob :=
  match t with
  | Completed => succeededRecord jd
  | _ => failedRecord jd
  end.

(** The page actions of a turn of the stepping loop that goes through. *)
Definition turnEvents : list event :=
  [WaitForSelector jobApplyPorcentBar; ReadProgress;
   WaitForSelector jobApllyButton; Click jobApllyButton].

(** A close of the dialog with the cancellation confirmed. *)
Definition cancelEvents : list event :=
  [WaitForSelector jobApplyClose; Click jobApplyClose;
   WaitForSelector confirmCancelApplyButton; Click confirmCancelApplyButton].

(** What a turn of the stepping loop does when it judges the wizard stuck,
    [ledger] being the ledger with the new record. *)
Definition stuckEvents (ledger : list IAppliedJob) : list event :=
  [WaitForSelector jobApplyPorcentBar; ReadProgress; Log FailedToApply;
   WriteFile ledger; Log ClosingStuck] ++ cancelEvents.

(** A turn of the stepping loop that goes through and reads 0. *)
Definition readsZero (s : stepEnv) : Prop :=
  s_waitBar s = true /\ s_read s = Gives (Text (Num 0)) /\
  s_waitPrimary s = true /\ s_clickPrimary s = true.

Definition append (st : state) (evs : list event) : state :=
  mkState (appliedJobs st) (file st) (trace st ++ evs).

Definition isNoResume (l : logline) : bool :=
  match l with
  | NoResumeFound => true
  | _ => false
  end.

(** What the driver does between the apply control and the stepping loop
    when the page answers and a resume is selected. *)
Definition entryEvents : list event :=
  [Click jobApply; Log ApplyingForJob; WaitForSelector jobApllyButton;
   Click jobApllyButton; WaitForSelector jobApplyPorcentBar; ReadProgress].

Definition resumeEvents : list event :=
  [Log SelectingResume; WaitForSelector jobsResumeItem;
   Click jobsResumeItemButton; Click jobApllyButton].

(** [concludes t n record st res]: from [st], the driver returned in [res]
    having announced the one terminal outcome [t], added the one record
    [record] to the ledger and handed the ledger so extended to the one
    call of [fs.writeFile], and read the progress bar [n] times. *)
Definition concludes (t : terminal) (n : nat) (record : IAppliedJob) (st : state)
    (res : state * outcome unit) : Prop :=
  exists evs,
    res = (mkState (appliedJobs st ++ [record]) (file st) (trace st ++ evs), Ret tt) /\
    terminals evs = [t] /\
    written evs = [appliedJobs st ++ [record]] /\
    readings evs = n.

(** The flag of the record that goes with a terminal outcome. *)
Definition isCompleted (t : terminal) : bool :=
  match t with
  | Completed => true
  | _ => false
  end.

(** How the stepping loop ends on a sequence of readings with a verdict. *)
Definition steppingEnds (t : terminal) (jd : JobDetails) (st : state)
    (res : state * outcome jsnum) : Prop :=
  match t with
  | Stuck =>
      exists evs pn,
        res = (mkState (appliedJobs st ++ [failedRecord jd])
                       (file st)
                       (trace st ++ evs), Ret pn) /\
        strictEq pn (Num 100) = false /\
        terminals evs = [Stuck] /\
        written evs = [appliedJobs st ++ [failedRecord jd]]
  | Completed =>
      exists evs,
        res = (append st evs, Ret (Num 100)) /\
        terminals evs = [] /\ written evs = []
  | _ => False
  end.

(** A computation that never rejects. *)
Definition safe {A} (m : M A) : Prop := forall st, snd (m st) <> Threw.

(** The next-page step fails: the lookup of the control rejects, or the
    control is found and the click, or the wait that follows it, rejects. *)
Definition nextFails (n : nextEnv) : Prop :=
  n_button n = Throws \/
  (n_button n = Gives true /\ (n_click n = false \/ n_wait n = false)).

(** [costs r n m]: the events of [m] hold at most [r] calls of [getJobs] and
    [n] navigations, no announcement of a page and no load of the ledger. *)
Definition costs (r n : nat) {A} (m : M A) : Prop :=
  forall st, exists evs,
    trace (fst (m st)) = trace st ++ evs /\
    (rounds evs <= r)%nat /\
    (List.length (navigations evs) <= n)%nat /\
    pagesAnnounced evs = [] /\
    loads evs = 0%nat.

(** Results pages on which the lookup of the next-page control rejects. *)
Definition brokenPager : runEnv :=
  mkRun (fun _ _ => mkQueryEnv true (Gives true) true (Gives (Some [])))
        (fun _ => mkNext Throws true true).

Definition reactQuery : IQuery :=
  mkQuery (Some "React") (Some (mkQueryOptions (Some "Toronto") None None)).

Definition isGoingToPage (l : logline) : bool :=
  match l with
  | GoingToPage _ => true
  | _ => false
  end.

(** A listing without a resume whose stepping loop reads 50 twice. *)
Definition noResumeThenStuck : listingEnv :=
  withoutResume (wizardOn 10 [50; 50] (fun _ => okStep Falsy) apiDev).

(** A listing without a resume whose stepping loop reads 100. *)
Definition noResumeThenDone : listingEnv :=
  withoutResume (wizardOn 10 [100] (fun _ => okStep Falsy) apiDev).

(** A listing whose description is the empty string, and a ledger that
    holds its title and company. *)
Definition noDescription : JobDetails :=
  mkDetails (Some "API Dev") (Some "Acme") (Some "").

Definition onceApplied : list IAppliedJob := [mkApplied "API Dev" "Acme" true].

Definition nodeUrl : Url := buildUrl (query nodeQuery) (options nodeQuery).

Definition reactUrl : Url := buildUrl (query reactQuery) (options reactQuery).

(** The service after the load of an empty ledger. *)
Definition loadedEmpty : state := mkState [] (Some []) [ReadFile].

(** ** Reading a search URL back, and [generateQueryWithLocation] of [main.ts] *)

(** [url.searchParams.get(name)] *)
Definition getParam (name : string) (url : Url) : option string :=
  option_map snd (find (fun p => String.eqb (fst p) name) url).

(** A value that is set only when it is truthy. *)
Definition whenTruthy (o : option string) : option string :=
  if present o then o else None.

Definition withoutParam (name : string) (url : Url) : Url :=
  filter (fun p => negb (String.eqb (fst p) name)) url.

(** [{ ...query, options: { ...query.options, location } }] *)
Definition generateQueryWithLocation (q : IQuery) (loc : string) : IQuery :=
  mkQuery (query q)
          (Some (mkQueryOptions (Some loc)
                                (optBind (options q) filters)
                                (optBind (options q) q_blackListCompanies))).

Definition urlOf (q : IQuery) : Url := buildUrl (query q) (options q).

(** ** Predicates on a listing and on its events *)

(** The listing opens, its details are read and screening accepts them
    against the ledger of [st]. *)
Definition accepted (l : listingEnv) (o : option IApplyForJobOptions) (st : state) : Prop :=
  l_click l = true /\ l_waitDetails l = true /\
  exists d, l_details l = Gives (Some d) /\ shouldApply d (appliedJobs st) o = Accept.

(** An event of the inside of [applyForJob], after the click on the listing
    and apart from the writes of the ledger file. *)
Definition inner (e : event) : bool :=
  match e with
  | ClickListing _ => false
  | WriteFile _ => false
  | _ => quiet e
  end.

Definition notListingClick (e : event) : bool :=
  match e with
  | ClickListing _ => false
  | _ => true
  end.

(** The element handles clicked, in order. *)
Definition clicked (evs : list event) : list nat :=
  pick (fun e => match e with ClickListing h => Some h | _ => None end) evs.

(** Every write of the file ends with a record of the job [t] at [c]. *)
Definition recordsFor (t c : string) (e : event) : bool :=
  match e with
  | WriteFile content =>
      match rev content with
      | r :: _ => sameJob t c r
      | [] => false
      end
  | _ => true
  end.

(** A reading that leaves the stepping loop without being 100: not a
    number, or more than 100. *)
Definition overshoots (r : ariaValue) : Prop :=
  r = Text NaN \/ exists v, r = Text (Num v) /\ 100 < v.

(** A turn of the stepping loop that goes through and reads nothing or 0. *)
Definition idle (s : stepEnv) : Prop :=
  s_waitBar s = true /\
  (s_read s = Gives Falsy \/ s_read s = Gives (Text (Num 0))) /\
  s_waitPrimary s = true /\ s_clickPrimary s = true.

(** A page action of a turn of the stepping loop rejects. *)
Definition rejects (s : stepEnv) : Prop :=
  s_waitBar s = false \/ s_read s = Throws \/
  s_waitPrimary s = false \/ s_clickPrimary s = false.

(** A turn judges the wizard stuck: the bar reads a number that is not 0
    and is the value of [porcentNumber]. *)
Definition judgedStuck (s : stepEnv) (porcentNumber : jsnum) : Prop :=
  exists v, s_read s = Gives (Text v) /\
            notEq v (Num 0) = true /\ strictEq v porcentNumber = true.

(** The value of [porcentNumber] at the loop test of a turn that gets
    there: the reading, and the value as it was when the bar gave none. *)
Definition atTest (s : stepEnv) (porcentNumber : jsnum) : jsnum :=
  match s_read s with
  | Gives (Text v) => v
  | _ => porcentNumber
  end.

(** The loop test fails: 100 or more, or not a number. *)
Definition testFails (n : jsnum) : Prop :=
  n = NaN \/ exists z, n = Num z /\ 100 <= z.

(** The ways out of the stepping loop, at a turn. *)
Definition leaves (s : stepEnv) (porcentNumber : jsnum) : Prop :=
  rejects s \/ judgedStuck s porcentNumber \/ testFails (atTest s porcentNumber).

(** A turn of the stepping loop on which the progress bar does not come. *)
Definition noBar : stepEnv := mkStep false (Gives Falsy) okClose true true.

(** [keyword], lower-cased by the host, is found at some place in
    [description] lower-cased by the host. *)
Definition occursIgnoringCase (description keyword : string) : Prop :=
  exists before after,
    toLocaleLowerCase description
    = (before ++ toLocaleLowerCase keyword ++ after)%string.

(** A listing of the blacklisted company, and the options that blacklist it. *)
Definition toroListing : listingEnv :=
  okListing (mkDetails (Some "Backend Eng") (Some "Toro") (Some "Node role"))
            (Text (Num 10)) (fun _ => okStep Falsy).

Definition toroBlacklisted : option IApplyForJobOptions :=
  Some (mkOptions (Some ["Toro"]) None).

(** A listing whose wizard reads 0 on entering. *)
Definition zeroListing : listingEnv := wizardOn 0 [] (fun _ => okStep Falsy) apiDev.

(** Results pages with one listing, whose wizard reads 0 on entering, and
    without a next-page control. *)
Definition oneListing : runEnv :=
  mkRun (fun _ _ => mkQueryEnv true (Gives true) true (Gives (Some [zeroListing])))
        (fun _ => mkNext (Gives false) true true).

(** A ledger that holds one job of another company. *)
Definition toroApplied : list IAppliedJob := [mkApplied "Backend Eng" "Toro" true].

(** The three page actions of the resume selection resolve. *)
Definition resumeSelected (l : listingEnv) : Prop :=
  l_waitResume l = true /\ l_clickResume l = true /\ l_clickAfterResume l = true.

(** [st'] has the ledger of [st] with at most [n] records added. *)
Definition grew (n : nat) (st st' : state) : Prop :=
  exists added,
    appliedJobs st' = appliedJobs st ++ added /\ (List.length added <= n)%nat.

(** Lines 311-325: the [try] of the resume selection and its [catch]. *)
Definition selectResume (l : listingEnv) (jd : JobDetails) : M unit :=
  tryCatch
    (log SelectingResume ;;
     pageOp (WaitForSelector jobsResumeItem) (l_waitResume l) ;;
     pageOp (Click jobsResumeItemButton) (l_clickResume l) ;;
     pageOp (Click jobApllyButton) (l_clickAfterResume l))
    (log NoResumeFound ;;
     detached (writeAppliedJobs (failedRecord jd)) ;;
     detached (closeApply (l_closeNoResume l) true)).

(** The next-page control is found, and the click and the wait resolve. *)
Definition nextThere (n : nextEnv) : Prop :=
  n_button n = Gives true /\ n_click n = true /\ n_wait n = true.

(** What the next-page step does when the control is there. *)
Definition nextEvents (page : nat) : list event :=
  [Log TryingNextPage; Select paginationNextBtn; Log (GoingToPage (page + 1));
   Click paginationNextBtn; WaitForSelector container].

(** Any event but a load of the ledger, the writes ending with a record
    whose title and company are non-empty. *)
Definition namedRecords (e : event) : bool :=
  match e with
  | ReadFile => false
  | WriteFile content =>
      match rev content with
      | r :: _ => Str.truthy (title r) && Str.truthy (company r)
      | [] => false
      end
  | _ => true
  end.

(** * Screening *)

Section Screening.

Lemma prefix_occursAt (t s : string) : String.prefix t s = Spec.occursAt s t 0.
Proof.
  unfold Spec.occursAt.
  destruct (String.prefix t s) eqn:P.
  - apply prefix_correct in P. rewrite P. symmetry. apply String.eqb_refl.
  - symmetry. apply String.eqb_neq. intros E.
    apply prefix_correct in E. rewrite E in P. discriminate P.
Qed.

Lemma existsb_shift (f : nat -> bool) (n : nat) :
  existsb f (seq 1 n) = existsb (fun i => f (S i)) (seq 0 n).
Proof.
  rewrite <- seq_shift. induction (seq 0 n) as [|i l IH]; simpl; [reflexivity|].
  rewrite IH. reflexivity.
Qed.

(** Searching from the head on is looking at every position. *)
Lemma includes_substringOf (s t : string) : Str.includes s t = Spec.substringOf s t.
Proof.
  induction s as [|c s IH]; unfold Spec.substringOf; cbn [Str.includes String.length].
  - rewrite prefix_occursAt. reflexivity.
  - change (seq 0 (S (S (String.length s)))) with (0%nat :: seq 1 (S (String.length s))).
    cbn [existsb]. rewrite prefix_occursAt, existsb_shift, IH. reflexivity.
Qed.

Lemma keywordOccurs_spec (description keyword : string) :
  keywordOccurs description keyword = Spec.occurs toLocaleLowerCase description keyword.
Proof. apply includes_substringOf. Qed.


Lemma findApplied_spec (ledger : list IAppliedJob) (d : JobDetails) :
  match findApplied ledger (text (d_title d)) (text (d_company d)) with
  | Some _ => true
  | None => false
  end = Spec.inLedger ledger d.
Proof.
  unfold findApplied, Spec.inLedger.
  destruct ledger as [|a ledger]; [reflexivity|].
  change (0 <? List.length (a :: ledger))%nat with true. cbv iota.
  induction (a :: ledger) as [|b l IH]; simpl; [reflexivity|].
  unfold sameJob at 1.
  destruct (String.eqb (title b) (text (d_title d)) && String.eqb (company b) (text (d_company d)));
    [reflexivity | exact IH].
Qed.

Lemma findApplied_in (ledger : list IAppliedJob) (t c : string) :
  (exists a, In a ledger /\ title a = t /\ company a = c) <->
  (exists a, findApplied ledger t c = Some a).
Proof.
  unfold findApplied. split.
  - intros (a & Hin & Ht & Hc).
    destruct ledger as [|b l]; [destruct Hin|].
    change (0 <? List.length (b :: l))%nat with true. cbv iota.
    destruct (find (sameJob t c) (b :: l)) as [x|] eqn:F; [eauto|].
    exfalso. apply (find_none _ _ F) in Hin.
    unfold sameJob in Hin. rewrite Ht, Hc, !String.eqb_refl in Hin. discriminate.
  - intros (a & F).
    destruct (0 <? List.length ledger)%nat; [|discriminate].
    apply find_some in F. destruct F as (Hin & S).
    unfold sameJob in S. apply andb_true_iff in S. destruct S as (S1 & S2).
    apply String.eqb_eq in S1. apply String.eqb_eq in S2. eauto.
Qed.

Lemma isBlacklisted_spec (o : option IApplyForJobOptions) (d : JobDetails) :
  isBlacklisted o (text (d_company d)) = Spec.blacklisted o d.
Proof.
  unfold isBlacklisted, Spec.blacklisted, arrayIncludes.
  destruct o as [o|]; simpl; [|reflexivity].
  destruct (blackListCompanies o); reflexivity.
Qed.

Lemma keywordMismatch_spec (o : option IApplyForJobOptions) (d : JobDetails) :
  keywordMismatch o (text (d_description d)) = Spec.keywordRuleSupplied toLocaleLowerCase o d.
Proof.
  unfold keywordMismatch, Spec.keywordRuleSupplied, Spec.noneOccurs.
  destruct o as [o|]; simpl; [|reflexivity].
  destruct (descriptionKeywords o) as [ks|]; [|reflexivity].
  induction ks as [|k ks IH]; simpl; [reflexivity|].
  rewrite keywordOccurs_spec.
  destruct (Spec.occurs toLocaleLowerCase (text (d_description d)) k); simpl;
    [reflexivity | exact IH].
Qed.

Lemma shouldApply_complete (d : JobDetails) (ledger : list IAppliedJob)
    (o : option IApplyForJobOptions) :
  present (d_title d) = true -> present (d_company d) = true ->
  present (d_description d) = true ->
  shouldApply d ledger o =
  match findApplied ledger (text (d_title d)) (text (d_company d)) with
  | Some _ => Skip AlreadyAppliedInLedger
  | None =>
      if isBlacklisted o (text (d_company d)) then Skip Blacklisted
      else if keywordMismatch o (text (d_description d)) then Skip KeywordMismatch
      else Accept
  end.
Proof.
  intros Ht Hc Hd. unfold shouldApply. rewrite Ht, Hc, Hd. reflexivity.
Qed.

End Screening.

(** * Rules for the effect monad *)

Section Traces.

Lemma pick_app {A} (f : event -> option A) (a b : list event) :
  pick f (a ++ b) = pick f a ++ pick f b.
Proof.
  induction a as [|e a IH]; simpl; [reflexivity|].
  destruct (f e); simpl; rewrite IH; reflexivity.
Qed.

Lemma pick_none {A} (f : event -> option A) (K : event -> bool) (evs : list event) :
  (forall e, K e = true -> f e = None) ->
  forallb K evs = true -> pick f evs = [].
Proof.
  intros HK. induction evs as [|e evs IH]; simpl; [reflexivity|].
  intros H. apply andb_true_iff in H. destruct H as (He & Hr).
  rewrite (HK e He). auto.
Qed.

Lemma forallb_weaken (K K' : event -> bool) (evs : list event) :
  (forall e, K e = true -> K' e = true) ->
  forallb K evs = true -> forallb K' evs = true.
Proof.
  intros HK. rewrite !forallb_forall. auto.
Qed.

Lemma persistsAll_app l a l' b l'' :
  persistsAll l a l' -> persistsAll l' b l'' -> persistsAll l (a ++ b) l''.
Proof.
  induction 1; intros Hb; simpl; [assumption | |].
  - apply persists_write; auto.
  - apply persists_other; auto.
Qed.

Lemma persistsAll_prefix l evs l' :
  persistsAll l evs l' -> exists added, l' = l ++ added.
Proof.
  induction 1 as [l | l r evs l' _ IH | l e evs l' _ _ IH].
  - exists []. now rewrite app_nil_r.
  - destruct IH as (added & ->). exists (r :: added). now rewrite <- app_assoc.
  - exact IH.
Qed.

Lemma last_cons_default {A} (x : A) (t : list A) (d d' : A) :
  last (x :: t) d = last (x :: t) d'.
Proof.
  revert x. induction t as [|y t IH]; intros x; [reflexivity|].
  change (last (y :: t) d = last (y :: t) d'). apply IH.
Qed.

(** Each write extends the content of the write before it by one record. *)
Lemma persistsAll_written l evs l' :
  persistsAll l evs l' ->
  forall before c after, written evs = before ++ c :: after ->
    exists r, c = last (l :: before) l ++ [r].
Proof.
  induction 1 as [l | l r evs l' _ IH | l e evs l' Hne _ IH]; intros before c after W.
  - destruct before; discriminate W.
  - unfold written in W. simpl in W. fold (written evs) in W.
    destruct before as [|b before].
    + injection W as <- _. exists r. reflexivity.
    + injection W as <- W. destruct (IH _ _ _ W) as (r' & ->).
      exists r'.
      change (last (l :: (l ++ [r]) :: before) l) with (last ((l ++ [r]) :: before) l).
      rewrite (last_cons_default _ _ l (l ++ [r])). reflexivity.
  - apply IH with (after := after). unfold written in *. simpl in W.
    destruct e; try exact W. destruct (Hne content eq_refl).
Qed.

Lemma follows_refl K st : follows K st st.
Proof.
  exists []. rewrite app_nil_r. repeat split; auto. constructor.
Qed.

Lemma follows_trans K st1 st2 st3 :
  follows K st1 st2 -> follows K st2 st3 -> follows K st1 st3.
Proof.
  intros (a & Ta & Ka & Pa) (b & Tb & Kb & Pb).
  exists (a ++ b). repeat split.
  - rewrite Tb, Ta, app_assoc. reflexivity.
  - rewrite forallb_app, Ka, Kb. reflexivity.
  - eapply persistsAll_app; eauto.
Qed.

Lemma follows_weaken (K K' : event -> bool) st st' :
  (forall e, K e = true -> K' e = true) -> follows K st st' -> follows K' st st'.
Proof.
  intros HK (a & Ta & Ka & Pa). exists a. repeat split; auto.
  eapply forallb_weaken; eauto.
Qed.

Variable K : event -> bool.

Lemma sound_ret {A} (a : A) : sound K (ret a).
Proof. intros st. apply follows_refl. Qed.

Lemma sound_throw {A} : sound K (@throw A).
Proof. intros st. apply follows_refl. Qed.

Lemma sound_spin {A} : sound K (@spin A).
Proof. intros st. apply follows_refl. Qed.

Lemma sound_getAppliedJobs : sound K getAppliedJobs.
Proof. intros st. apply follows_refl. Qed.

Lemma sound_bind {A B} (m : M A) (f : A -> M B) :
  sound K m -> (forall a, sound K (f a)) -> sound K (bind m f).
Proof.
  intros Hm Hf st. unfold bind. specialize (Hm st).
  destruct (m st) as [st' [a| |]]; simpl in *; auto.
  eapply follows_trans; [exact Hm | apply Hf].
Qed.

Lemma sound_tryCatch {A} (m h : M A) :
  sound K m -> sound K h -> sound K (tryCatch m h).
Proof.
  intros Hm Hh st. unfold tryCatch. specialize (Hm st).
  destruct (m st) as [st' [a| |]]; simpl in *; auto.
  eapply follows_trans; [exact Hm | apply Hh].
Qed.

Lemma sound_detached (m : M unit) : sound K m -> sound K (detached m).
Proof.
  intros Hm st. unfold detached. specialize (Hm st).
  destruct (m st) as [st' [a| |]]; simpl in *; auto.
Qed.

Lemma sound_emit (e : event) :
  K e = true -> (forall c, e <> WriteFile c) -> sound K (emit e).
Proof.
  intros He Hne st. exists [e]. simpl. rewrite He. repeat split; auto.
  apply persists_other; [exact Hne | constructor].
Qed.

Lemma sound_log (l : logline) : K (Log l) = true -> sound K (log l).
Proof. intros H. apply sound_emit; [exact H | discriminate]. Qed.

Lemma sound_pageOp (e : event) (ok : bool) :
  K e = true -> (forall c, e <> WriteFile c) -> sound K (pageOp e ok).
Proof.
  intros He Hne. apply sound_bind; [now apply sound_emit|].
  intros _. destruct ok; [apply sound_ret | apply sound_throw].
Qed.

Lemma sound_pageGet {A} (e : event) (a : answer A) :
  K e = true -> (forall c, e <> WriteFile c) -> sound K (pageGet e a).
Proof.
  intros He Hne. apply sound_bind; [now apply sound_emit|].
  intros _. destruct a; [apply sound_throw | apply sound_ret].
Qed.

Hypothesis writes_allowed : forall c, K (WriteFile c) = true.

Lemma sound_writeAppliedJobs (r : IAppliedJob) : sound K (writeAppliedJobs r).
Proof.
  intros st. exists [WriteFile (appliedJobs st ++ [r])]. simpl.
  rewrite writes_allowed. repeat split; auto.
  apply persists_write. constructor.
Qed.

End Traces.

(** One step of a soundness proof, following the shape of the code. *)
Ltac sound_step :=
  match goal with
  | |- sound _ (bind _ _) => apply sound_bind; [|intros]
  | |- sound _ (tryCatch _ _) => apply sound_tryCatch
  | |- sound _ (detached _) => apply sound_detached
  | |- sound _ (ret _) => apply sound_ret
  | |- sound _ throw => apply sound_throw
  | |- sound _ spin => apply sound_spin
  | |- sound _ getAppliedJobs => apply sound_getAppliedJobs
  | |- sound _ (writeAppliedJobs _) => apply sound_writeAppliedJobs; reflexivity
  | |- sound _ (pageOp _ _) => apply sound_pageOp; [reflexivity | discriminate]
  | |- sound _ (pageGet _ _) => apply sound_pageGet; [reflexivity | discriminate]
  | |- sound _ (log _) => apply sound_log; reflexivity
  | |- sound _ (emit _) => apply sound_emit; [reflexivity | discriminate]
  | |- sound _ (if ?b then _ else _) => destruct b
  | |- sound _ (match ?x with _ => _ end) => destruct x
  end.

Ltac sound_auto := repeat sound_step; auto.

Section WizardSound.

Lemma sound_closeApply c confirm : sound quiet (closeApply c confirm).
Proof. unfold closeApply. sound_auto. Qed.

Lemma sound_loadJobDetails l : sound quiet (loadJobDetails l).
Proof. unfold loadJobDetails. sound_auto. Qed.

Lemma sound_advance s : sound quiet (advance s).
Proof. unfold advance. sound_auto. Qed.

Lemma sound_stepping fuel steps jd i p : sound quiet (stepping fuel steps jd i p).
Proof.
  revert i p. induction fuel as [|fuel IH]; intros i p; simpl; [apply sound_spin|].
  pose proof sound_closeApply. pose proof sound_advance.
  sound_auto.
Qed.

Lemma sound_selectResumeAndStep fuel l jd : sound quiet (selectResumeAndStep fuel l jd).
Proof.
  unfold selectResumeAndStep, complete.
  pose proof sound_closeApply. pose proof sound_stepping.
  sound_auto.
Qed.

Lemma sound_startWizard fuel l jd : sound quiet (startWizard fuel l jd).
Proof.
  unfold startWizard.
  pose proof sound_closeApply. pose proof sound_selectResumeAndStep.
  sound_auto.
Qed.

Lemma sound_logSkip ledger jd r : sound quiet (logSkip ledger jd r).
Proof. unfold logSkip. sound_auto. Qed.

Lemma sound_applyForJob fuel l o : sound quiet (applyForJob fuel l o).
Proof.
  unfold applyForJob.
  pose proof sound_loadJobDetails. pose proof sound_logSkip.
  pose proof sound_startWizard.
  sound_auto.
Qed.

Lemma sound_applyForJobs fuel js o : sound quiet (applyForJobs fuel js o).
Proof.
  induction js as [|j js IH]; simpl.
  - apply sound_ret.
  - pose proof sound_applyForJob. pose proof sound_closeApply. sound_auto.
Qed.

End WizardSound.

(** * Screening: the order of the rules and the ledger check *)

Section ScreeningClaims.

(** A listing that screening skips leaves the ledger, the file and the
    list of writes as they were. *)
Lemma applyForJob_skip fuel l o st d r :
  l_details l = Gives (Some d) ->
  shouldApply d (appliedJobs st) o = Skip r ->
  appliedJobs (fst (applyForJob fuel l o st)) = appliedJobs st /\
  file (fst (applyForJob fuel l o st)) = file st /\
  written (trace (fst (applyForJob fuel l o st))) = written (trace st).
Proof.
  intros Hd Hs.
  unfold applyForJob, loadJobDetails, pageOp, pageGet, log, emit, bind, ret, throw,
    getAppliedJobs.
  rewrite Hd.
  destruct (l_click l), (l_waitDetails l); cbn -[shouldApply written];
    try (unfold written; rewrite ?pick_app; cbn; rewrite ?app_nil_r; auto).
  set (ledger := appliedJobs st) in *. cbv beta. simpl appliedJobs. fold ledger.
  rewrite Hs. unfold logSkip, log, emit, ret.
  destruct r; [| destruct (findApplied _ _ _) | |]; cbn;
    unfold written; rewrite ?pick_app; cbn; rewrite ?app_nil_r; auto.
Qed.

Lemma shouldApply_screening (d : JobDetails) (ledger : list IAppliedJob)
    (o : option IApplyForJobOptions) :
  shouldApply d ledger o
  = Spec.screening (Spec.keywordRuleSupplied toLocaleLowerCase) d ledger o.
Proof.
  unfold shouldApply, Spec.screening, Spec.firstMatch, Spec.incomplete.
  rewrite <- findApplied_spec, <- isBlacklisted_spec, <- keywordMismatch_spec.
  destruct (present (d_title d)), (present (d_company d)), (present (d_description d));
    simpl; try reflexivity.
  destruct (findApplied ledger _ _); reflexivity.
Qed.


(** With at least one keyword, or none supplied, the specification's
    keyword rule is the code's. *)
Lemma shouldApply_some_keyword (d : JobDetails) (ledger : list IAppliedJob)
    (o : option IApplyForJobOptions) :
  optBind o descriptionKeywords <> Some [] ->
  shouldApply d ledger o = Spec.screening (Spec.keywordRule toLocaleLowerCase) d ledger o.
Proof.
  intros H. rewrite shouldApply_screening.
  unfold Spec.screening, Spec.keywordRule, Spec.keywordRuleSupplied.
  destruct (optBind o descriptionKeywords) as [[|k ks]|]; try reflexivity.
  contradiction.
Qed.

(** C5, as amended.  For a listing whose title, company and description
    are all non-empty, screening answers already-applied exactly when some
    record of the ledger has the same title and the same company, string
    for string, whatever the record's outcome, the description, the
    blacklist and the keywords; and [applyForJob] then writes nothing. *)
Theorem shouldApply_dedup (d : JobDetails) (ledger : list IAppliedJob)
    (o : option IApplyForJobOptions) :
  present (d_title d) = true ->
  present (d_company d) = true ->
  present (d_description d) = true ->
  ((exists a, In a ledger /\ title a = text (d_title d) /\ company a = text (d_company d))
   <-> shouldApply d ledger o = Skip AlreadyAppliedInLedger) /\
  (forall fuel l st,
      l_details l = Gives (Some d) ->
      appliedJobs st = ledger ->
      shouldApply d ledger o = Skip AlreadyAppliedInLedger ->
      appliedJobs (fst (applyForJob fuel l o st)) = ledger /\
      file (fst (applyForJob fuel l o st)) = file st /\
      written (trace (fst (applyForJob fuel l o st))) = written (trace st)).
Proof.
  intros Ht Hc Hd. split.
  - rewrite findApplied_in, (shouldApply_complete d ledger o Ht Hc Hd).
    destruct (findApplied ledger _ _) as [a|].
    + split; eauto.
    + split.
      * intros (a & F). discriminate F.
      * destruct (isBlacklisted _ _); [discriminate|].
        destruct (keywordMismatch _ _); discriminate.
  - intros fuel l st Hl <- Hs.
    exact (applyForJob_skip fuel l o st d _ Hl Hs).
Qed.

End ScreeningClaims.

(** * The wizard driver *)

Section Wizard.

Lemma append_append st a b : append (append st a) b = append st (a ++ b).
Proof. unfold append. simpl. rewrite app_assoc. reflexivity. Qed.

(** A turn of the stepping loop on which the page answers and the bar
    reads the integer [v], [p] being the value of [porcentNumber]. *)
Lemma stepping_turn fuel steps jd i v p st :
  steps i = okStep (Text (Num v)) ->
  stepping (S fuel) steps jd i (Num p) st =
  if negb (v =? 0) && (v =? p) then
    (mkState (appliedJobs st ++ [failedRecord jd])
             (file st)
             (trace st ++ stuckEvents (appliedJobs st ++ [failedRecord jd])),
     Ret (Num p))
  else if v <? 100 then stepping fuel steps jd (S i) (Num v) (append st turnEvents)
  else (append st turnEvents, Ret (Num v)).
Proof.
  intros H. cbn [stepping]. rewrite H.
  unfold okStep, advance, closeApply, pageOp, pageGet, log, emit, detached,
    writeAppliedJobs, bind, ret, notEq, strictEq, lessThan, append.
  cbn -[Z.eqb Z.ltb stepping].
  destruct (negb (v =? 0) && (v =? p)); cbn -[Z.eqb Z.ltb stepping].
  - rewrite <- !app_assoc. reflexivity.
  - rewrite <- !app_assoc. cbn -[Z.eqb Z.ltb stepping].
    destruct (v <? 100); reflexivity.
Qed.

Lemma startWizard_ok fuel jd first steps st :
  startWizard fuel (okListing jd (Text (Num first)) steps) jd st =
  if first =? 0 then
    (mkState (appliedJobs st ++ [failedRecord jd])
             (file st)
             (trace st ++ entryEvents
                ++ [WriteFile (appliedJobs st ++ [failedRecord jd]); Log ProgressBarIsZero]
                ++ cancelEvents),
     Ret tt)
  else
    bind (stepping fuel steps jd 0%nat (Num 0))
         (complete (okListing jd (Text (Num first)) steps) jd)
         (append st (entryEvents ++ resumeEvents)).
Proof.
  unfold startWizard, selectResumeAndStep, okListing, closeApply, pageOp, pageGet,
    log, emit, detached, tryCatch, writeAppliedJobs, strictEq, append.
  cbn -[Z.eqb stepping complete].
  destruct (first =? 0); cbn -[Z.eqb stepping complete].
  - rewrite <- !app_assoc. reflexivity.
  - rewrite <- !app_assoc. reflexivity.
Qed.

End Wizard.

Section WizardVerdict.

Lemma stuck_test (previous : option Z) (v : Z) :
  negb (v =? 0) && match previous with Some p => v =? p | None => false end
  = negb (v =? 0) && (v =? match previous with Some p => p | None => 0 end).
Proof.
  destruct previous as [p|]; [reflexivity|].
  destruct (v =? 0); reflexivity.
Qed.

Lemma stepping_verdict jd others :
  forall steps i previous t extra st,
    (forall k v, nth_error others k = Some v ->
                 steps (i + k)%nat = okStep (Text (Num v))) ->
    (forall p, previous = Some p -> p < 100) ->
    verdictFrom previous others = Some t ->
    steppingEnds t jd st
      (stepping (List.length others + extra) steps jd i
                (Num (match previous with Some p => p | None => 0 end)) st).
Proof.
  induction others as [|v rest IH]; intros steps i previous t extra st Hs Hp Hv.
  - discriminate Hv.
  - cbn [verdictFrom] in Hv. rewrite stuck_test in Hv.
    cbn [List.length Nat.add].
    rewrite (stepping_turn _ steps jd i v);
      [| rewrite <- (Hs 0%nat v eq_refl); f_equal; lia].
    destruct (negb (v =? 0) && (v =? _)) eqn:T.
    + injection Hv as <-. cbn [steppingEnds].
      eexists. eexists. split; [reflexivity|]. split; [|split; reflexivity].
      apply andb_true_iff in T. destruct T as (T0 & T1).
      apply Z.eqb_eq in T1.
      destruct previous as [p|].
      * simpl. apply Z.eqb_neq. specialize (Hp p eq_refl). lia.
      * subst v. discriminate T0.
    + destruct (v =? 100) eqn:E100.
      * injection Hv as <-. apply Z.eqb_eq in E100. subst v.
        cbn [steppingEnds]. exists turnEvents. repeat split; reflexivity.
      * destruct (100 <? v) eqn:G; [discriminate Hv|].
        assert (L : (v <? 100) = true).
        { apply Z.ltb_lt. apply Z.eqb_neq in E100. apply Z.ltb_ge in G. lia. }
        rewrite L.
        specialize (IH steps (S i) (Some v) t extra (append st turnEvents)).
        assert (R : steppingEnds t jd (append st turnEvents)
                      (stepping (List.length rest + extra) steps jd (S i) (Num v)
                                (append st turnEvents))).
        { apply IH; [| | exact Hv].
          - intros k w Hk. rewrite <- (Hs (S k) w Hk). f_equal. lia.
          - intros p [= <-]. apply Z.ltb_lt. exact L. }
        destruct t; cbn [steppingEnds] in *; try contradiction.
        -- destruct R as (evs & -> & T1 & W). exists (turnEvents ++ evs).
           rewrite append_append. split; [reflexivity|]. split.
           ++ unfold terminals in *. rewrite pick_app, T1. reflexivity.
           ++ unfold written in *. rewrite pick_app, W. reflexivity.
        -- destruct R as (evs & pn & -> & N & T1 & W).
           exists (turnEvents ++ evs), pn. cbn [append appliedJobs trace file].
           rewrite <- app_assoc. split; [reflexivity|]. split; [exact N|]. split.
           ++ unfold terminals in *. rewrite pick_app, T1. reflexivity.
           ++ unfold written in *. rewrite pick_app, W. reflexivity.
Qed.

(** The driver on a sequence of readings that has a verdict: one terminal
    outcome, the one that the verdict names, and its one record. *)
Lemma wizard_verdict jd first others t tail extra st :
  verdict first others = Some t ->
  exists n, concludes t n (recordOf jd t) st
              (startWizard (List.length others + extra)
                           (wizardOn first others tail jd) jd st).
Proof.
  unfold verdict, wizardOn. intros Hv. rewrite startWizard_ok.
  destruct (first =? 0).
  - injection Hv as <-. eexists. eexists. split; [reflexivity|].
    split; [|split]; reflexivity.
  - pose proof (stepping_verdict jd others (readingSteps others tail) 0%nat None t extra
                  (append st (entryEvents ++ resumeEvents))) as R.
    cbv iota in R.
    assert (E : steppingEnds t jd (append st (entryEvents ++ resumeEvents))
                  (stepping (List.length others + extra) (readingSteps others tail) jd 0
                     (Num 0) (append st (entryEvents ++ resumeEvents)))).
    { apply R; [| discriminate | exact Hv].
      intros k v Hk. unfold readingSteps. cbn [Nat.add]. rewrite Hk. reflexivity. }
    clear R. unfold bind.
    destruct t; cbn [steppingEnds] in E; try contradiction.
    + destruct E as (evs & -> & T & W).
      exists (readings ((entryEvents ++ resumeEvents) ++ evs
                ++ [Log AppliedForJob; WriteFile (appliedJobs st ++ [succeededRecord jd]);
                    Log ClosingJobApply; WaitForSelector jobApplyClose;
                    Click jobApplyClose])).
      eexists. split; [|split; [|split; [|reflexivity]]].
      * unfold complete, okListing, closeApply, pageOp, log, emit, detached,
          writeAppliedJobs, bind, ret, append.
        cbn. rewrite <- !app_assoc. reflexivity.
      * unfold terminals in *. rewrite !pick_app, T. reflexivity.
      * unfold written in *. rewrite !pick_app, W. reflexivity.
    + destruct E as (evs & pn & -> & N & T & W).
      exists (readings ((entryEvents ++ resumeEvents) ++ evs)).
      eexists. split; [|split; [|split; [|reflexivity]]].
      * unfold complete. rewrite N. unfold ret, append. cbn.
        rewrite <- !app_assoc. reflexivity.
      * unfold terminals in *. rewrite !pick_app, T. reflexivity.
      * unfold written in *. rewrite !pick_app, W. reflexivity.
Qed.

End WizardVerdict.

Section WizardClaims.

(** C3.  Whatever the listing's title, company and description, the
    ledger so far and the readings that would follow: the readings [0] end
    in [Stuck] on the first read, with one record of the title and the
    company whose [appliedSuccessfully] is [false]; [10, 40, 70, 100] end
    in [Completed] after four reads, with one such record whose flag is
    [true]; [20, 55, 55] end in [Stuck] at the third read, the repeated 55,
    with one record whose flag is [false].  In general the driver follows
    the verdict on the sequence: zero on the first read, or else a non-zero
    reading of the stepping loop equal to the reading of the turn before
    in that loop, is [Stuck]; 100 is [Completed]; the flag of the one
    record tells which. *)
Theorem wizard_progress_readings (jobTitle jobCompany : string)
    (jobDescription : option string) (tail : nat -> stepEnv) (extra : nat) (st : state) :
  let jd := mkDetails (Some jobTitle) (Some jobCompany) jobDescription in
  concludes Stuck 1 (mkApplied jobTitle jobCompany false) st
    (startWizard extra (wizardOn 0 [] tail jd) jd st) /\
  concludes Completed 4 (mkApplied jobTitle jobCompany true) st
    (startWizard (3 + extra) (wizardOn 10 [40; 70; 100] tail jd) jd st) /\
  concludes Stuck 3 (mkApplied jobTitle jobCompany false) st
    (startWizard (2 + extra) (wizardOn 20 [55; 55] tail jd) jd st) /\
  (forall first others t,
      verdict first others = Some t ->
      exists n, concludes t n (mkApplied jobTitle jobCompany (isCompleted t)) st
                  (startWizard (List.length others + extra)
                               (wizardOn first others tail jd) jd st)).
Proof.
  intros jd. split; [|split; [|split]].
  - unfold concludes, wizardOn. rewrite startWizard_ok. cbn [Z.eqb].
    eexists. split; [reflexivity|]. repeat split.
  - unfold concludes, wizardOn. rewrite startWizard_ok. cbn [Z.eqb Nat.add]. unfold bind.
    rewrite (stepping_turn _ _ jd 0 40 0), append_append by reflexivity. cbn [Z.eqb Z.ltb Z.compare Pos.compare Pos.compare_cont negb andb Pos.eqb].
    rewrite (stepping_turn _ _ jd 1 70 40), append_append by reflexivity. cbn [Z.eqb Z.ltb Z.compare Pos.compare Pos.compare_cont negb andb Pos.eqb].
    rewrite (stepping_turn _ _ jd 2 100 70), append_append by reflexivity. cbn [Z.eqb Z.ltb Z.compare Pos.compare Pos.compare_cont negb andb Pos.eqb].
    eexists. split.
    { unfold complete, okListing, closeApply, pageOp, log, emit, detached,
        writeAppliedJobs, bind, ret, append.
      cbn. rewrite <- !app_assoc. reflexivity. }
    repeat split.
  - unfold concludes, wizardOn. rewrite startWizard_ok. cbn [Z.eqb Nat.add]. unfold bind.
    rewrite (stepping_turn _ _ jd 0 55 0), append_append by reflexivity. cbn [Z.eqb Z.ltb Z.compare Pos.compare Pos.compare_cont negb andb Pos.eqb].
    rewrite (stepping_turn _ _ jd 1 55 55) by reflexivity. cbn [Z.eqb Z.ltb Z.compare Pos.compare Pos.compare_cont negb andb Pos.eqb].
    eexists. split.
    { unfold complete, ret, append. cbn. rewrite <- !app_assoc. reflexivity. }
    repeat split.
  - intros first others t Hv.
    destruct (wizard_verdict jd first others t tail extra st Hv) as (n & H).
    exists n. destruct t; exact H.
Qed.

Lemma wizard_progress_readings_witness :
  exists n,
    concludes Stuck n (mkApplied "API Dev" "Acme" false) (initialState (Some []))
      (startWizard (3 + 0) (wizardOn 20 [55; 55; 7] (fun _ => okStep Falsy) apiDev)
                   apiDev (initialState (Some []))).
Proof.
  apply (proj2 (proj2 (proj2
           (wizard_progress_readings "API Dev" "Acme" (Some "Node/AWS role")
                                     (fun _ => okStep Falsy) 0 (initialState (Some []))))))
    with (first := 20) (others := [55; 55; 7]).
  reflexivity.
Defined.

Lemma append_nil st : append st [] = st.
Proof. destruct st. unfold append. simpl. rewrite app_nil_r. reflexivity. Qed.

Lemma stepping_zero_turn fuel steps jd i st :
  readsZero (steps i) ->
  stepping (S fuel) steps jd i (Num 0) st =
  stepping fuel steps jd (S i) (Num 0) (append st turnEvents).
Proof.
  intros (A & B & C & D). cbn [stepping].
  unfold advance, pageOp, pageGet, emit, bind, ret, append.
  rewrite A, B, C, D. cbn -[stepping]. rewrite <- !app_assoc. reflexivity.
Qed.

Lemma stepping_zero_spins steps jd :
  (forall k, readsZero (steps k)) ->
  forall fuel i st,
  exists evs,
    stepping fuel steps jd i (Num 0) st = (append st evs, Spins) /\
    written evs = [] /\ terminals evs = [] /\ readings evs = fuel.
Proof.
  intros H. induction fuel as [|fuel IH]; intros i st.
  - exists []. rewrite append_nil. repeat split.
  - rewrite stepping_zero_turn by apply H.
    destruct (IH (S i) (append st turnEvents)) as (evs & E & W & T & R).
    exists (turnEvents ++ evs). rewrite E, append_append.
    split; [reflexivity|]. unfold written, terminals, readings in *.
    rewrite !pick_app, W, T, length_app, R. repeat split.
Qed.

Lemma testFails_iff (n : jsnum) : lessThan n (Num 100) = false <-> testFails n.
Proof.
  unfold testFails. destruct n as [z|]; simpl.
  - rewrite Z.ltb_ge. split.
    + intros H. right. exists z. auto.
    + intros [H|(z' & H & G)]; [discriminate H | injection H as <-; exact G].
  - split; auto.
Qed.

(** A turn with a way out ends the loop. *)
Lemma stepping_leaves fuel steps jd i p st :
  leaves (steps i) p -> snd (stepping (S fuel) steps jd i p st) <> Spins.
Proof.
  unfold leaves, rejects, judgedStuck, atTest. cbn [stepping].
  destruct (steps i) as [wb rd [c1 c2 c3 c4] wp cp].
  cbn [s_waitBar s_read s_close s_waitPrimary s_clickPrimary].
  unfold advance, closeApply, pageOp, pageGet, log, emit, detached, writeAppliedJobs,
    bind, ret, throw.
  cbn [c_wait c_click c_waitConfirm c_clickConfirm].
  intros H.
  destruct wb; [|cbn; discriminate].
  destruct rd as [|[|v]]; [cbn; discriminate| |].
  - destruct wp; [|cbn; discriminate]. destruct cp; [|cbn; discriminate].
    cbn -[stepping lessThan].
    destruct (lessThan p (Num 100)) eqn:T; [|cbn; discriminate].
    exfalso. destruct H as [[H|[H|[H|H]]]|[(v & H & _)|H]]; try discriminate H.
    apply testFails_iff in H. congruence.
  - cbn -[stepping lessThan notEq strictEq].
    destruct (notEq v (Num 0) && strictEq v p) eqn:S.
    + destruct c1, c2, c3, c4; cbn; discriminate.
    + destruct wp; [|cbn; discriminate]. destruct cp; [|cbn; discriminate].
      cbn -[stepping lessThan].
      destruct (lessThan v (Num 100)) eqn:T; [|cbn; discriminate].
      exfalso. destruct H as [[H|[H|[H|H]]]|[(w & H & N & E)|H]]; try discriminate H.
      * injection H as <-. rewrite N, E in S. discriminate S.
      * apply testFails_iff in H. congruence.
Qed.

(** A turn without a way out goes on to the next turn. *)
Lemma stepping_goes_on fuel steps jd i p st :
  ~ leaves (steps i) p ->
  stepping (S fuel) steps jd i p st
  = stepping fuel steps jd (S i) (atTest (steps i) p) (append st turnEvents).
Proof.
  unfold leaves, rejects, judgedStuck, atTest. cbn [stepping].
  destruct (steps i) as [wb rd c wp cp].
  cbn [s_waitBar s_read s_close s_waitPrimary s_clickPrimary].
  intros H.
  destruct wb; [|destruct H; auto].
  destruct rd as [|x]; [destruct H; auto|].
  destruct wp; [|destruct H; auto].
  destruct cp; [|destruct H; auto 6].
  unfold advance, pageOp, pageGet, emit, bind, ret, append.
  destruct x as [|v]; cbn -[stepping lessThan notEq strictEq].
  - destruct (lessThan p (Num 100)) eqn:T.
    + rewrite <- !app_assoc. reflexivity.
    + destruct H. right. right. apply testFails_iff. exact T.
  - destruct (notEq v (Num 0) && strictEq v p) eqn:S.
    + destruct H. right. left. exists v. apply andb_true_iff in S. tauto.
    + cbn -[stepping lessThan].
      destruct (lessThan v (Num 100)) eqn:T.
      * rewrite <- !app_assoc. reflexivity.
      * destruct H. right. right. apply testFails_iff. exact T.
Qed.

(** C10, as amended.  A reading of 0 never passes the stuck test.  When
    every turn of the stepping loop reads 0 (and the page answers), the
    loop is still running after any number of turns, one reading per turn,
    with no record written and no outcome announced, and so is the driver
    that entered it.  The loop has no bound on its turns; a turn ends it
    exactly when one of its page actions rejects, when it judges the wizard
    stuck, or when the value it has read is 100 or more or is not a number,
    and goes on to the next turn otherwise. *)
Theorem stepping_zero_never_ends (jd : JobDetails) (steps : nat -> stepEnv) :
  (forall k, readsZero (steps k)) ->
  (forall p, notEq (Num 0) (Num 0) && strictEq (Num 0) p = false) /\
  (forall fuel i st,
      exists evs,
        stepping fuel steps jd i (Num 0) st = (append st evs, Spins) /\
        written evs = [] /\ terminals evs = [] /\ readings evs = fuel) /\
  (forall fuel first st,
      first <> 0 ->
      exists evs,
        startWizard fuel (okListing jd (Text (Num first)) steps) jd st
        = (append st evs, Spins) /\
        written evs = [] /\ terminals evs = []) /\
  (forall others fuel i p st,
      (leaves (others i) p ->
       snd (stepping (S fuel) others jd i p st) <> Spins) /\
      (~ leaves (others i) p ->
       stepping (S fuel) others jd i p st
       = stepping fuel others jd (S i) (atTest (others i) p) (append st turnEvents))).
Proof.
  intros H. split; [|split; [|split]].
  - intros p. reflexivity.
  - apply stepping_zero_spins. exact H.
  - intros fuel first st Hf. rewrite startWizard_ok.
    apply Z.eqb_neq in Hf. rewrite Hf. unfold bind.
    destruct (stepping_zero_spins steps jd H fuel 0%nat
                (append st (entryEvents ++ resumeEvents))) as (evs & E & W & T & _).
    rewrite E, append_append. eexists. split; [reflexivity|].
    unfold written, terminals in *. rewrite !pick_app, W, T. split; reflexivity.
  - intros others fuel i p st. split.
    + apply stepping_leaves.
    + apply stepping_goes_on.
Qed.

(** C10 as stated fails on the ways out of the loop: a reading that is not
    a number ends it, with no stuck judgment and no reading of 100 or
    more, and so does a page action that rejects. *)
Lemma stepping_other_ways_out :
  stepping 3 (fun _ => okStep (Text NaN)) apiDev 0 (Num 0) loadedEmpty
  = (append loadedEmpty turnEvents, Ret NaN) /\
  terminals turnEvents = [] /\
  (forall z, NaN <> Num z) /\
  stepping 3 (fun _ => noBar) apiDev 0 (Num 0) loadedEmpty
  = (append loadedEmpty [WaitForSelector jobApplyPorcentBar], Threw).
Proof. repeat split. discriminate. Qed.

Lemma stepping_zero_never_ends_witness :
  exists evs,
    stepping 7 (fun _ => okStep (Text (Num 0))) apiDev 0 (Num 0) (initialState (Some []))
    = (append (initialState (Some [])) evs, Spins) /\
    written evs = [] /\ terminals evs = [] /\ readings evs = 7%nat.
Proof.
  apply (proj1 (proj2 (stepping_zero_never_ends apiDev (fun _ => okStep (Text (Num 0)))
                         (fun _ => conj eq_refl (conj eq_refl (conj eq_refl eq_refl)))))).
Defined.

End WizardClaims.

(** * The run: queries, pages and the ledger *)

Section RunSound.

Lemma sound_weaken (K K' : event -> bool) {A} (m : M A) :
  (forall e, K e = true -> K' e = true) -> sound K m -> sound K' m.
Proof.
  intros HK Hm st. eapply follows_weaken; [exact HK | apply Hm].
Qed.

Lemma quiet_noLoad e : quiet e = true -> noLoad e = true.
Proof. destruct e; simpl; auto. Qed.

Lemma sound_loadJobs K e : K (SelectAll jobs) = true ->
  (forall n, K (Log (FoundJobs n)) = true) -> sound K (loadJobs e).
Proof.
  intros H1 H2. unfold loadJobs.
  apply sound_bind; [apply sound_pageGet; [exact H1 | discriminate]|].
  intros found. apply sound_bind; [apply sound_log; apply H2 | intros; apply sound_ret].
Qed.

Lemma sound_openQuery fuel e q : sound noLoad (openQuery fuel e q).
Proof.
  unfold openQuery.
  assert (sound noLoad (loadJobs e)) by (apply sound_loadJobs; reflexivity).
  assert (forall js o, sound noLoad (applyForJobs fuel js o))
    by (intros; eapply sound_weaken; [exact quiet_noLoad | apply sound_applyForJobs]).
  sound_auto.
Qed.

Lemma sound_openQueries fuel visit queries :
  forall j, sound noLoad (openQueries fuel visit j queries).
Proof.
  induction queries as [|q queries IH]; intros j; simpl.
  - apply sound_ret.
  - pose proof sound_openQuery. sound_auto.
Qed.

Lemma sound_getJobs fuel visit queries : sound noLoad (getJobs fuel visit queries).
Proof.
  unfold getJobs. pose proof sound_openQueries. sound_auto.
Qed.

Lemma sound_nextPage n page : sound noLoad (nextPage n page).
Proof. unfold nextPage. sound_auto. Qed.

Lemma sound_turn fuel env queries page : sound noLoad (turn fuel env queries page).
Proof.
  unfold turn. pose proof sound_getJobs. pose proof sound_nextPage. sound_auto.
Qed.

Lemma sound_pageLoop fuel env queries page : sound noLoad (pageLoop fuel env queries page).
Proof.
  intros st. funelim (pageLoop fuel env queries page st);
    pose proof (sound_turn fuel env queries page st) as T;
    match goal with E : turn _ _ _ _ _ = _ |- _ => rewrite E in T end;
    try exact T.
  eapply follows_trans; [exact T | assumption].
Qed.

Lemma init_loaded fuel env queries content :
  init fuel env queries (initialState (Some content))
  = pageLoop fuel env queries 1%nat (mkState content (Some content) [ReadFile]).
Proof. reflexivity. Qed.

End RunSound.

Section Ledger.

Lemma noLoad_loads evs : forallb noLoad evs = true -> loads evs = 0%nat.
Proof.
  intros H. unfold loads.
  rewrite (pick_none _ noLoad evs); [reflexivity | | exact H].
  intros [] E; try reflexivity. discriminate E.
Qed.

(** The ledger in memory is what the last call of [fs.writeFile] was
    handed, and the ledger at the start when there was no call. *)
Lemma persistsAll_last l evs l' :
  persistsAll l evs l' -> last (l :: written evs) l = l'.
Proof.
  induction 1 as [l | l r evs l' _ IH | l e evs l' Hne _ IH].
  - reflexivity.
  - unfold written. cbn [pick]. fold (written evs).
    change (last (l :: (l ++ [r]) :: written evs) l) with (last ((l ++ [r]) :: written evs) l).
    rewrite (last_cons_default _ _ l (l ++ [r])). exact IH.
  - rewrite <- IH. unfold written. simpl.
    destruct e; try reflexivity. destruct (Hne content eq_refl).
Qed.

(** C8.  A run that finds [content] in the ledger file reads the file once,
    before anything else; from then on the ledger in memory is [content]
    with records added at its end, so that no record moves, changes or
    goes away and the length never decreases.  Each call of
    [fs.writeFile] is handed the content of the call before it (the
    content read, for the first call) with one record added at its end,
    and the last call is handed the ledger in memory.  This is so at the
    end of the run and at any point at which the fuel of the model stops
    it. *)
Theorem ledger_append_only (fuel : nat) (env : runEnv) (queries : list IQuery)
    (content : list IAppliedJob) :
  let st' := fst (init fuel env queries (initialState (Some content))) in
  exists evs added,
    trace st' = ReadFile :: evs /\
    loads evs = 0%nat /\
    appliedJobs st' = content ++ added /\
    (forall i r, nth_error content i = Some r ->
                 nth_error (appliedJobs st') i = Some r) /\
    (List.length content <= List.length (appliedJobs st'))%nat /\
    persistsAll content evs (appliedJobs st') /\
    (forall before c after,
        written evs = before ++ c :: after ->
        exists r, c = last (content :: before) content ++ [r]) /\
    last (content :: written evs) content = appliedJobs st'.
Proof.
  cbv zeta. rewrite init_loaded.
  destruct (sound_pageLoop fuel env queries 1%nat (mkState content (Some content) [ReadFile]))
    as (evs & T & K & P).
  cbn [appliedJobs trace file] in *.
  destruct (persistsAll_prefix _ _ _ P) as (added & E).
  exists evs, added. split; [exact T|]. split; [apply noLoad_loads; exact K|].
  split; [exact E|]. split; [|split; [|split; [exact P|split]]].
  - intros i r H. rewrite E. rewrite nth_error_app1; [exact H|].
    apply nth_error_Some. rewrite H. discriminate.
  - rewrite E, length_app. lia.
  - exact (persistsAll_written _ _ _ P).
  - exact (persistsAll_last _ _ _ P).
Qed.

End Ledger.

Section Paging.

Lemma pageLoop_body fuel env queries page st :
  pageLoop fuel env queries page st =
  match turn fuel env queries page st with
  | (st', Ret (Tested true)) =>
      if lt_dec (S page) 5 then pageLoop fuel env queries (S page) st'
      else (st', Ret tt)
  | (st', Ret _) => (st', Ret tt)
  | (st', Threw) => (st', Threw)
  | (st', Spins) => (st', Spins)
  end.
Proof.
  funelim (pageLoop fuel env queries page st);
    match goal with E : turn _ _ _ _ _ = _ |- _ => rewrite E end;
    try reflexivity;
    match goal with E : lt_dec _ _ = _ |- _ => rewrite E end; reflexivity.
Qed.

Lemma safe_ret {A} (a : A) : safe (ret a).
Proof. intros st. discriminate. Qed.

Lemma safe_emit e : safe (emit e).
Proof. intros st. discriminate. Qed.

Lemma safe_bind {A B} (m : M A) (f : A -> M B) :
  safe m -> (forall a, safe (f a)) -> safe (bind m f).
Proof.
  intros Hm Hf st. unfold bind. specialize (Hm st).
  destruct (m st) as [st' [a| |]]; simpl in *; [apply Hf | congruence | discriminate].
Qed.

(** A [catch] whose handler never rejects makes the whole never reject. *)
Lemma safe_tryCatch {A} (m h : M A) : safe h -> safe (tryCatch m h).
Proof.
  intros Hh st. unfold tryCatch.
  destruct (m st) as [st' [a| |]]; simpl; [discriminate | apply Hh | discriminate].
Qed.

Lemma safe_openQueries fuel visit queries :
  forall j, safe (openQueries fuel visit j queries).
Proof.
  induction queries as [|q queries IH]; intros j; simpl.
  - apply safe_ret.
  - apply safe_bind.
    + apply safe_tryCatch. apply safe_bind; [apply safe_emit | intros; apply safe_ret].
    + intros [|]; [apply IH | apply safe_ret].
Qed.

Lemma safe_getJobs fuel visit queries : safe (getJobs fuel visit queries).
Proof.
  unfold getJobs. apply safe_bind; [apply safe_emit | intros; apply safe_openQueries].
Qed.

Lemma safe_nextPage n page : safe (nextPage n page).
Proof.
  unfold nextPage. apply safe_tryCatch.
  apply safe_bind; [apply safe_emit | intros; apply safe_ret].
Qed.

Lemma safe_turn fuel env queries page : safe (turn fuel env queries page).
Proof.
  unfold turn. apply safe_bind; [apply safe_getJobs | intros; apply safe_nextPage].
Qed.

Lemma safe_pageLoop fuel env queries page : safe (pageLoop fuel env queries page).
Proof.
  intros st. funelim (pageLoop fuel env queries page st); try discriminate; try assumption.
  intros _. apply (safe_turn fuel env queries page st).
  match goal with E : turn _ _ _ _ _ = _ |- _ => rewrite E end. reflexivity.
Qed.

Lemma nextPage_fails n page st :
  nextFails n ->
  exists evs,
    nextPage n page st = (append st (evs ++ [Log ErrorNextPage]), Ret Break) /\
    navigations evs = [] /\ rounds evs = 0%nat /\ written evs = [].
Proof.
  destruct n as [b c w]. unfold nextFails. cbn [n_button n_click n_wait].
  unfold nextPage, tryCatch, pageGet, pageOp, log, emit, bind, ret, throw, append.
  intros [-> | (-> & [-> | ->])]; [| | destruct c]; cbn; rewrite <- !app_assoc.
  - exists [Log TryingNextPage; Select paginationNextBtn]. repeat split.
  - exists [Log TryingNextPage; Select paginationNextBtn; Log (GoingToPage (page + 1));
            Click paginationNextBtn]. repeat split.
  - exists [Log TryingNextPage; Select paginationNextBtn; Log (GoingToPage (page + 1));
            Click paginationNextBtn; WaitForSelector container]. repeat split.
  - exists [Log TryingNextPage; Select paginationNextBtn; Log (GoingToPage (page + 1));
            Click paginationNextBtn]. repeat split.
Qed.

(** C9.  A run that finds the ledger file never rejects, whatever the
    page does.  In a turn of the page loop in which [getJobs] has returned
    and the next-page step fails, the failure is logged and the loop ends
    there: [init] returns, no query is opened again, and the ledger and
    the file are as [getJobs] left them. *)
Theorem next_page_error_stops_paging (fuel : nat) (env : runEnv) (queries : list IQuery) :
  (forall content,
      snd (init fuel env queries (initialState (Some content))) <> Threw) /\
  (forall page st st1,
      getJobs fuel (r_visit env page) queries st = (st1, Ret tt) ->
      nextFails (r_next env page) ->
      exists evs,
        pageLoop fuel env queries page st
        = (append st1 (evs ++ [Log ErrorNextPage]), Ret tt) /\
        navigations evs = [] /\ rounds evs = 0%nat /\ written evs = []).
Proof.
  split.
  - intros content. rewrite init_loaded. apply safe_pageLoop.
  - intros page st st1 Hg Hn.
    destruct (nextPage_fails (r_next env page) page st1 Hn) as (evs & E & P).
    exists evs. split; [|exact P].
    rewrite pageLoop_body. unfold turn, bind. rewrite Hg, E. reflexivity.
Qed.

End Paging.

Section Counting.

Lemma costs_weaken (r r' n n' : nat) {A} (m : M A) :
  (r <= r')%nat -> (n <= n')%nat -> costs r n m -> costs r' n' m.
Proof.
  intros Hr Hn Hm st. destruct (Hm st) as (evs & T & R & N & P & L).
  exists evs. repeat split; auto; lia.
Qed.

Lemma costs_sound {A} (m : M A) : sound quiet m -> costs 0 0 m.
Proof.
  intros Hm st. destruct (Hm st) as (evs & T & K & _).
  exists evs. split; [exact T|].
  unfold rounds, navigations, pagesAnnounced, loads.
  rewrite !(pick_none _ quiet evs); simpl; auto;
    intros [] E; try reflexivity; try discriminate E;
    destruct l; try reflexivity; discriminate E.
Qed.

Lemma costs_ret {A} (a : A) : costs 0 0 (ret a).
Proof. apply costs_sound, sound_ret. Qed.

Lemma costs_bind (r1 r2 n1 n2 : nat) {A B} (m : M A) (f : A -> M B) :
  costs r1 n1 m -> (forall a, costs r2 n2 (f a)) -> costs (r1 + r2) (n1 + n2) (bind m f).
Proof.
  intros Hm Hf st. unfold bind. destruct (Hm st) as (a & Ta & Ra & Na & Pa & La).
  destruct (m st) as [st' [x| |]]; simpl in *;
    try (exists a; repeat split; auto; lia).
  destruct (Hf x st') as (b & Tb & Rb & Nb & Pb & Lb).
  exists (a ++ b). unfold rounds, navigations, pagesAnnounced, loads in *.
  rewrite !pick_app, !length_app, Pa, Pb, Tb, Ta, app_assoc.
  repeat split; auto; lia.
Qed.

Lemma costs_tryCatch (r1 r2 n1 n2 : nat) {A} (m h : M A) :
  costs r1 n1 m -> costs r2 n2 h -> costs (r1 + r2) (n1 + n2) (tryCatch m h).
Proof.
  intros Hm Hh st. unfold tryCatch. destruct (Hm st) as (a & Ta & Ra & Na & Pa & La).
  destruct (m st) as [st' [x| |]]; simpl in *;
    try (exists a; repeat split; auto; lia).
  destruct (Hh st') as (b & Tb & Rb & Nb & Pb & Lb).
  exists (a ++ b). unfold rounds, navigations, pagesAnnounced, loads in *.
  rewrite !pick_app, !length_app, Pa, Pb, Tb, Ta, app_assoc.
  repeat split; auto; lia.
Qed.

Lemma costs_goto u : costs 0 1 (emit (Goto u)).
Proof. intros st. exists [Goto u]. repeat split; auto. Qed.

Lemma costs_opening n : costs 1 0 (log (OpeningQueries n)).
Proof. intros st. exists [Log (OpeningQueries n)]. repeat split; auto. Qed.

Lemma costs_openQuery fuel e q : costs 0 1 (openQuery fuel e q).
Proof.
  unfold openQuery.
  apply (costs_bind 0 0 0 1); [apply costs_sound, sound_log; reflexivity|].
  intros _. apply (costs_bind 0 0 1 0); [apply costs_goto|].
  intros _. apply costs_sound.
  assert (sound quiet (loadJobs e)) by (apply sound_loadJobs; reflexivity).
  pose proof sound_applyForJobs.
  sound_auto.
Qed.

Lemma costs_openQueries fuel visit queries :
  forall j, costs 0 (List.length queries) (openQueries fuel visit j queries).
Proof.
  induction queries as [|q queries IH]; intros j; simpl.
  - apply costs_ret.
  - apply (costs_bind 0 0 1 (List.length queries)).
    + apply (costs_tryCatch 0 0 1 0); [apply costs_openQuery|].
      apply costs_sound. sound_auto.
    + intros [|]; [apply IH|].
      eapply costs_weaken; [| |apply costs_ret]; lia.
Qed.

Lemma costs_getJobs fuel visit queries :
  costs 1 (List.length queries) (getJobs fuel visit queries).
Proof.
  unfold getJobs.
  apply (costs_bind 1 0 0 (List.length queries)); [apply costs_opening|].
  intros _. apply costs_openQueries.
Qed.

Lemma nextPage_events n page st :
  exists evs,
    trace (fst (nextPage n page st)) = trace st ++ evs /\
    rounds evs = 0%nat /\ navigations evs = [] /\ loads evs = 0%nat /\
    (pagesAnnounced evs = [] \/ pagesAnnounced evs = [(page + 1)%nat]) /\
    (snd (nextPage n page st) = Ret (Tested true) ->
     pagesAnnounced evs = [(page + 1)%nat]).
Proof.
  destruct n as [[|[|]] c w]; [| destruct c, w |];
    unfold nextPage, tryCatch, pageGet, pageOp, log, emit, bind, ret, throw;
    cbn; rewrite <- !app_assoc; eexists; (split; [reflexivity|]);
    repeat split; auto; discriminate.
Qed.

Lemma turn_events fuel env queries page st :
  exists evs,
    trace (fst (turn fuel env queries page st)) = trace st ++ evs /\
    (rounds evs <= 1)%nat /\
    (List.length (navigations evs) <= List.length queries)%nat /\
    loads evs = 0%nat /\
    (pagesAnnounced evs = [] \/ pagesAnnounced evs = [(page + 1)%nat]) /\
    (snd (turn fuel env queries page st) = Ret (Tested true) ->
     pagesAnnounced evs = [(page + 1)%nat]).
Proof.
  unfold turn, bind.
  destruct (costs_getJobs fuel (r_visit env page) queries st) as (a & Ta & Ra & Na & Pa & La).
  destruct (getJobs fuel (r_visit env page) queries st) as [st1 [[]| |]]; simpl in *;
    try (exists a; repeat split; auto; discriminate).
  destruct (nextPage_events (r_next env page) page st1) as (b & Tb & Rb & Nb & Lb & Pb & Qb).
  exists (a ++ b). unfold rounds, navigations, pagesAnnounced, loads in *.
  rewrite !pick_app, !length_app, Pa, Nb, Tb, Ta, app_assoc. simpl.
  repeat split; auto; lia.
Qed.

Lemma pageLoop_counts fuel env queries :
  forall d page st,
    (page + d = 4)%nat ->
    exists evs k,
      trace (fst (pageLoop fuel env queries page st)) = trace st ++ evs /\
      pagesAnnounced evs = seq (S page) k /\
      (k <= S d)%nat /\
      (rounds evs <= S d)%nat /\
      (List.length (navigations evs) <= S d * List.length queries)%nat /\
      loads evs = 0%nat.
Proof.
  induction d as [|d IH]; intros page st Hd; rewrite pageLoop_body;
    destruct (turn_events fuel env queries page st) as (a & Ta & Ra & Na & La & Pa & Qa);
    destruct (turn fuel env queries page st) as [st1 [[|[|]]| |]]; simpl in *;
    try (destruct Pa as [Pa|Pa];
         [ exists a, 0%nat | exists a, 1%nat; rewrite Nat.add_1_r in Pa ];
         repeat split; auto; lia).
  - destruct (lt_dec (S page) 5) as [L|L]; [lia|].
    exists a, 1%nat. rewrite Qa, Nat.add_1_r by reflexivity. simpl.
    repeat split; auto; lia.
  - destruct (lt_dec (S page) 5) as [L|L]; [|lia].
    destruct (IH (S page) st1) as (b & k & Tb & Pb & Kb & Rb & Nb & Lb); [lia|].
    exists (a ++ b), (S k). unfold rounds, navigations, pagesAnnounced, loads in *.
    rewrite !pick_app, !length_app, Pb, Qa, Tb, Ta, app_assoc, Nat.add_1_r by reflexivity.
    simpl. repeat split; auto; lia.
Qed.

End Counting.

Section PagingClaims.

(** C7.  In every run, whether or not the next-page control is always
    there, the counter [page] takes the values 1, 2, ... one after the
    other, up to 5 at most; [getJobs] is called at most 5 times, and each
    call opens each query at most once, so that at most 5 result pages
    are opened for a query. *)
Theorem page_counter_bounded (fuel : nat) (env : runEnv) (queries : list IQuery)
    (content : list IAppliedJob) :
  let st' := fst (init fuel env queries (initialState (Some content))) in
  exists evs k,
    trace st' = ReadFile :: evs /\
    1%nat :: pagesAnnounced evs = seq 1 (S k) /\
    (S k <= 5)%nat /\
    (rounds evs <= 5)%nat /\
    (List.length (navigations evs) <= 5 * List.length queries)%nat.
Proof.
  cbv zeta. rewrite init_loaded.
  destruct (pageLoop_counts fuel env queries 3 1%nat (mkState content (Some content) [ReadFile]))
    as (evs & k & T & P & K & R & N & _); [reflexivity|].
  exists evs, k. cbn [trace] in T. split; [exact T|].
  rewrite P. repeat split; lia.
Qed.

End PagingClaims.

Section ResumeClaims.

(** C1 fails on the code: with no resume to select, the driver logs it,
    records the failed application and calls for the close of the dialog,
    and then enters the stepping loop all the same: after the log line it
    waits for the progress bar and reads it, here twice, and judges the
    wizard stuck. *)
Lemma no_resume_still_steps :
  snd (startWizard 5 noResumeThenStuck apiDev (initialState (Some []))) = Ret tt /\
  terminals (trace (fst (startWizard 5 noResumeThenStuck apiDev (initialState (Some [])))))
  = [NoResumeAvailable; Stuck] /\
  In (WriteFile [mkApplied "API Dev" "Acme" false])
     (afterLog isNoResume
        (trace (fst (startWizard 5 noResumeThenStuck apiDev (initialState (Some [])))))) /\
  In (WaitForSelector jobApplyClose)
     (afterLog isNoResume
        (trace (fst (startWizard 5 noResumeThenStuck apiDev (initialState (Some [])))))) /\
  In (WaitForSelector jobApplyPorcentBar)
     (afterLog isNoResume
        (trace (fst (startWizard 5 noResumeThenStuck apiDev (initialState (Some [])))))) /\
  readings (afterLog isNoResume
              (trace (fst (startWizard 5 noResumeThenStuck apiDev
                             (initialState (Some []))))))
  = 2%nat.
Proof.
  split; [reflexivity|]. split; [reflexivity|].
  split; [cbn; tauto|]. split; [cbn; tauto|]. split; [cbn; tauto | reflexivity].
Qed.

(** When the apply control is not there, the driver logs it and returns:
    nothing is written. *)
Lemma apply_unavailable_no_record fuel l jd st :
  l_clickApply l = false ->
  startWizard fuel l jd st = (append st [Click jobApply; Log JobAlreadyApplied], Ret tt).
Proof.
  intros H. unfold startWizard, tryCatch, pageOp, log, emit, bind, ret, throw, append.
  rewrite H. cbn. rewrite <- app_assoc. reflexivity.
Qed.

(** C2 fails on the code for the outcome with no resume: the driver
    appends the record of the failed application and, the stepping loop
    running all the same, a second record for the same listing. *)
Lemma no_resume_two_records :
  appliedJobs (fst (startWizard 5 noResumeThenStuck apiDev (initialState (Some []))))
  = [failedRecord apiDev; failedRecord apiDev] /\
  appliedJobs (fst (startWizard 5 noResumeThenDone apiDev (initialState (Some []))))
  = [failedRecord apiDev; succeededRecord apiDev] /\
  terminals (trace (fst (startWizard 5 noResumeThenDone apiDev (initialState (Some [])))))
  = [NoResumeAvailable; Completed].
Proof. repeat split; reflexivity. Qed.

End ResumeClaims.

(** * The text of the details *)

Section DetailsText.

Import Text.

(** The ranges of [\s] hold the white space of ECMAScript and nothing
    else. *)
Lemma isWhiteSpace_white (c : N) : isWhiteSpace c = white c.
Proof.
  apply eq_true_iff_eq. unfold isWhiteSpace, white, whiteSpaceCodes. cbn [existsb].
  rewrite orb_false_r.
  rewrite !orb_true_iff, !andb_true_iff, !N.leb_le, !N.eqb_eq. lia.
Qed.

Ltac white := rewrite ?isWhiteSpace_white in *.

Lemma spaced_collapseFrom (s : list N) :
  forall inRun, spacedFrom inRun (collapseFrom inRun s) = true.
Proof.
  induction s as [|c s IH]; intros inRun; simpl; [reflexivity|]. white.
  destruct (white c) eqn:W.
  - destruct inRun; [apply IH|].
    change (spacedFrom false (space :: collapseFrom true s))
      with (spacedFrom true (collapseFrom true s)).
    apply IH.
  - simpl. rewrite W. apply IH.
Qed.

Lemma spaced_trimStart (s : list N) :
  forall p, spacedFrom p s = true -> spacedFrom true (trimStart s) = true.
Proof.
  induction s as [|c s IH]; intros p H; simpl in *; [reflexivity|]. white.
  destruct (white c) eqn:W.
  - apply andb_true_iff in H. destruct H as (_ & H). exact (IH true H).
  - simpl. rewrite W. exact H.
Qed.

Lemma tidy_trimEnd (s : list N) :
  forall p, spacedFrom p s = true -> tidyFrom p (trimEnd s) = true.
Proof.
  induction s as [|c s IH]; intros p H; simpl in *; [reflexivity|]. white.
  destruct (white c) eqn:W.
  - apply andb_true_iff in H. destruct H as (H1 & H).
    specialize (IH true H).
    destruct (trimEnd s) as [|d r] eqn:E; simpl; [reflexivity|].
    rewrite W, H1. simpl. exact IH.
  - simpl. rewrite W. exact (IH false H).
Qed.

Lemma tidy_spaced (s : list N) : forall p, tidyFrom p s = true -> spacedFrom p s = true.
Proof.
  induction s as [|c s IH]; intros p H; simpl in *; [reflexivity|].
  destruct (white c).
  - apply andb_true_iff in H. destruct H as (H1 & H).
    apply andb_true_iff in H1. destruct H1 as (H1 & _).
    rewrite H1. simpl. exact (IH true H).
  - exact (IH false H).
Qed.

Lemma collapseFrom_spaced (s : list N) :
  forall p, spacedFrom p s = true -> collapseFrom p s = s.
Proof.
  induction s as [|c s IH]; intros p H; simpl in *; [reflexivity|]. white.
  destruct (white c).
  - apply andb_true_iff in H. destruct H as (H1 & H).
    apply andb_true_iff in H1. destruct H1 as (Hc & Hp).
    apply N.eqb_eq in Hc. destruct p; [discriminate Hp|].
    rewrite (IH true H), Hc. reflexivity.
  - rewrite (IH false H). reflexivity.
Qed.

Lemma trimEnd_tidy (s : list N) : forall p, tidyFrom p s = true -> trimEnd s = s.
Proof.
  induction s as [|c s IH]; intros p H; simpl in *; [reflexivity|]. white.
  destruct (white c).
  - apply andb_true_iff in H. destruct H as (H1 & H).
    apply andb_true_iff in H1. destruct H1 as (_ & Hs).
    rewrite (IH true H). destruct s; [discriminate Hs | reflexivity].
  - rewrite (IH false H). rewrite andb_false_l. reflexivity.
Qed.

Lemma trimStart_tidy (s : list N) : tidy s = true -> trimStart s = s.
Proof.
  destruct s as [|c s]; simpl; [reflexivity|]. white.
  unfold tidy. simpl. destruct (white c); [|reflexivity].
  rewrite andb_false_r. discriminate.
Qed.

Lemma tidy_normalize (s : list N) : tidy (normalize s) = true.
Proof.
  unfold tidy, normalize, trim, collapse.
  apply tidy_trimEnd.
  apply (spaced_trimStart _ false), spaced_collapseFrom.
Qed.

Lemma normalize_tidy (s : list N) : tidy s = true -> normalize s = s.
Proof.
  intros H. unfold normalize, trim, collapse.
  assert (S : spacedFrom false s = true).
  { apply tidy_spaced in H. destruct s as [|c s]; [reflexivity|].
    simpl in *. destruct (white c); [|exact H].
    rewrite andb_false_r in H. discriminate H. }
  rewrite (collapseFrom_spaced s false S), (trimStart_tidy s H).
  exact (trimEnd_tidy s true H).
Qed.

Lemma space_white : white space = true.
Proof. reflexivity. Qed.

Lemma inked_collapseFrom (s : list N) : forall p, inked (collapseFrom p s) = inked s.
Proof.
  induction s as [|c s IH]; intros p; simpl; [reflexivity|]. white.
  destruct (white c) eqn:W.
  - destruct p; [apply IH|].
    cbn [inked]. rewrite space_white. apply IH.
  - simpl. rewrite W, IH. reflexivity.
Qed.

Lemma inked_trimStart (s : list N) : inked (trimStart s) = inked s.
Proof.
  induction s as [|c s IH]; simpl; [reflexivity|]. white.
  destruct (white c) eqn:W; [exact IH|].
  simpl. rewrite W. reflexivity.
Qed.

Lemma inked_trimEnd (s : list N) : inked (trimEnd s) = inked s.
Proof.
  induction s as [|c s IH]; simpl; [reflexivity|]. white.
  destruct (white c) eqn:W; simpl.
  - destruct (trimEnd s) as [|d r] eqn:E; simpl in *; [exact IH|].
    rewrite W. exact IH.
  - rewrite W, IH. reflexivity.
Qed.

Lemma inked_normalize (s : list N) : inked (normalize s) = inked s.
Proof.
  unfold normalize, trim, collapse.
  rewrite inked_trimEnd, inked_trimStart, inked_collapseFrom. reflexivity.
Qed.

Lemma tidy_no_ink (s : list N) : tidy s = true -> inked s = [] -> s = [].
Proof.
  destruct s as [|c s]; [reflexivity|].
  unfold tidy. simpl. destruct (white c).
  - rewrite andb_false_r. discriminate.
  - discriminate.
Qed.

Lemma normalize_empty (s : list N) : normalize s = [] <-> inked s = [].
Proof.
  split; intros H.
  - rewrite <- inked_normalize, H. reflexivity.
  - apply tidy_no_ink; [apply tidy_normalize | rewrite inked_normalize; exact H].
Qed.

(** The text kept for a details element is made of the words of the
    element's text, separated by single spaces: no white space of
    ECMAScript but the space U+0020, none first, none last, none twice in
    a row.  Cleaning a text that is already so changes nothing, so
    cleaning twice is cleaning once. *)
Theorem normalize_words (s : list N) :
  tidy (normalize s) = true /\
  (tidy s = true -> normalize s = s) /\
  normalize (normalize s) = normalize s.
Proof.
  split; [apply tidy_normalize|]. split; [apply normalize_tidy|].
  apply normalize_tidy, tidy_normalize.
Qed.

(** "API Dev" is kept as it is. *)
Lemma normalize_words_witness :
  normalize [65; 80; 73; 32; 68; 101; 118]%N = [65; 80; 73; 32; 68; 101; 118]%N.
Proof.
  apply (proj1 (proj2 (normalize_words [65; 80; 73; 32; 68; 101; 118]%N))). reflexivity.
Defined.

(** Cleaning the text of an element neither drops nor reorders nor adds a
    code unit that is not white space; the text kept is empty exactly when
    the element's text holds white space only. *)
Theorem normalize_keeps_ink (s : list N) :
  inked (normalize s) = inked s /\
  (normalize s = [] <-> inked s = []).
Proof.
  split; [apply inked_normalize | apply normalize_empty].
Qed.

(** A no-break space, a tab and a line separator make an empty text. *)
Lemma normalize_keeps_ink_witness : normalize [160; 9; 8232]%N = [].
Proof.
  apply (proj2 (proj2 (normalize_keeps_ink [160; 9; 8232]%N))). reflexivity.
Defined.

(** A no-break space, "A", a tab, an em space, a line feed, "B" and a byte
    order mark: the words are "A" and "B". *)
Example normalize_unicode_space :
  normalize [160; 65; 9; 8195; 10; 66; 65279]%N = [65; 32; 66]%N /\
  tidy [65; 160; 66]%N = false.
Proof. split; reflexivity. Qed.

End DetailsText.

(** * Search URLs *)

Section Urls.

(** A query cloned for a location keeps its keywords, every other search
    parameter, its blacklist and its description keywords; its URL carries
    the location when it is a non-empty string and no location otherwise,
    whatever location the query had. *)
Theorem generateQueryWithLocation_url (q : IQuery) (loc : string) :
  let g := generateQueryWithLocation q loc in
  getParam "location" (urlOf g) = whenTruthy (Some loc) /\
  withoutParam "location" (urlOf g) = withoutParam "location" (urlOf q) /\
  applyOptions g = applyOptions q.
Proof.
  destruct loc as [|? ?];
    destruct q as [[[|? ?]|] [[[[|? ?]|] [[[[|? ?]|] [[[|? ?]|?]|] [[|? ?]|] [[|]|] ?]|] ?]|]];
    repeat split; reflexivity.
Qed.

End Urls.

(** * The logger *)

Section LoggerLevels.

Import Logger.

Variable P : Type.

(** Lowering the level of a logger to [n] prints what the higher level
    prints of the calls whose method is at most [n], in the same order; at a
    level below 0 nothing is printed, errors included; at level 4 or more
    every call prints its line. *)
Theorem logger_levels (name : string) (n n' : Z) (calls : list (call P)) :
  n <= n' ->
  sayAll (setLogLevel (create name) n) calls
  = sayAll (setLogLevel (create name) n') (filter (audible n) calls) /\
  (n < 0 -> sayAll (setLogLevel (create name) n) calls = []) /\
  (4 <= n ->
   sayAll (setLogLevel (create name) n) calls
   = map (fun c => mkLine (format (create name) (callMessage c) (levelOf (callMethod c)))
                          (callParams c)) calls).
Proof.
  intros Hn. split; [|split].
  - induction calls as [|c calls IH]; [reflexivity|].
    unfold sayAll in *. cbn [filter flat_map]. rewrite IH.
    assert (S : say (setLogLevel (create name) n) c
                = if audible n c then say (setLogLevel (create name) n') c else []).
    { unfold say, log, audible. cbn [logLevel setLogLevel].
      destruct (levelOf (callMethod c) <=? n) eqn:A; [|reflexivity].
      apply Z.leb_le in A.
      assert (A' : (levelOf (callMethod c) <=? n') = true) by (apply Z.leb_le; lia).
      rewrite A'. reflexivity. }
    rewrite S. destruct (audible n c); reflexivity.
  - intros H. induction calls as [|c calls IH]; [reflexivity|].
    unfold sayAll in *. cbn [flat_map]. rewrite IH.
    unfold say, log. cbn [logLevel setLogLevel].
    assert (A : (levelOf (callMethod c) <=? n) = false)
      by (apply Z.leb_gt; destruct (callMethod c); simpl; lia).
    rewrite A. reflexivity.
  - intros H. induction calls as [|c calls IH]; [reflexivity|].
    unfold sayAll in *. cbn [flat_map map]. rewrite IH.
    unfold say, log. cbn [logLevel setLogLevel].
    assert (A : (levelOf (callMethod c) <=? n) = true)
      by (apply Z.leb_le; destruct (callMethod c); simpl; lia).
    rewrite A. reflexivity.
Qed.

End LoggerLevels.

Lemma logger_levels_witness :
  Logger.sayAll (Logger.setLogLevel (Logger.create "LinkedInJobs") 2)
                [Logger.mkCall Logger.debug "Browser options:" [tt];
                 Logger.mkCall Logger.warn "Browser is not initialized." []]
  = Logger.sayAll (Logger.setLogLevel (Logger.create "LinkedInJobs") 4)
                  (filter (Logger.audible 2)
                          [Logger.mkCall Logger.debug "Browser options:" [tt];
                           Logger.mkCall Logger.warn "Browser is not initialized." []]).
Proof.
  apply (proj1 (logger_levels unit "LinkedInJobs" 2 4 _ ltac:(lia))).
Defined.

(** * What a listing may do *)

Section Listing.

(** A listing that does not open, whose details cannot be read or that
    screening does not accept ends there: nothing is written and the apply
    control is not touched. *)
Lemma applyForJob_not_accepted fuel l o st :
  ~ accepted l o st ->
  exists evs,
    fst (applyForJob fuel l o st) = append st evs /\
    ~ In (Click jobApply) evs /\ written evs = [] /\
    snd (applyForJob fuel l o st) <> Spins.
Proof.
  unfold accepted. intros N.
  unfold applyForJob, loadJobDetails, pageOp, pageGet, log, emit, bind, ret, throw,
    getAppliedJobs, append.
  destruct (l_click l); [|cbn; eexists; repeat split; [cbn; intuition discriminate | discriminate]].
  destruct (l_waitDetails l);
    [|cbn; rewrite <- !app_assoc; eexists; repeat split; [cbn; intuition discriminate | discriminate]].
  destruct (l_details l) as [|[d|]];
    try (cbn; rewrite <- !app_assoc; eexists; repeat split;
         [cbn; intuition discriminate | discriminate]).
  cbn -[shouldApply]. rewrite <- !app_assoc.
  destruct (shouldApply d (appliedJobs st) o) as [|r] eqn:S.
  - exfalso. apply N. repeat split; auto. exists d. split; [reflexivity | exact S].
  - unfold logSkip, log, emit, ret.
    destruct r; [| destruct (findApplied _ _ _) | |];
      cbn; rewrite <- ?app_assoc; eexists; repeat split;
      try (cbn; intuition discriminate); try discriminate.
Qed.

Lemma sound_bind_ret (K : event -> bool) {A B} (Q : A -> Prop) (m : M A) (f : A -> M B) :
  (forall st st' a, m st = (st', Ret a) -> Q a) ->
  sound K m -> (forall a, Q a -> sound K (f a)) -> sound K (bind m f).
Proof.
  intros HQ Hm Hf st. unfold bind. specialize (Hm st). specialize (HQ st).
  destruct (m st) as [st' [a| |]]; simpl in *; auto.
  eapply follows_trans; [exact Hm | apply Hf, (HQ st' a eq_refl)].
Qed.

Lemma sound_writeRecord (K : event -> bool) (r : IAppliedJob) :
  (forall ledger, K (WriteFile (ledger ++ [r])) = true) -> sound K (writeAppliedJobs r).
Proof.
  intros HK st. exists [WriteFile (appliedJobs st ++ [r])]. simpl.
  rewrite HK. repeat split; auto.
  apply persists_write. constructor.
Qed.

End Listing.

(** The inside of [applyForJob] for a kind of events [K] that holds the
    inner events and the writes of the records of one listing. *)
Section Inside.

Variable K : event -> bool.
Variable jd : JobDetails.
Hypothesis K_inner : forall e, inner e = true -> K e = true.
Hypothesis K_failed : forall ledger, K (WriteFile (ledger ++ [failedRecord jd])) = true.
Hypothesis K_succeeded : forall ledger, K (WriteFile (ledger ++ [succeededRecord jd])) = true.

Ltac inside_step :=
  match goal with
  | |- sound _ (bind _ _) => apply sound_bind; [|intros]
  | |- sound _ (tryCatch _ _) => apply sound_tryCatch
  | |- sound _ (detached _) => apply sound_detached
  | |- sound _ (ret _) => apply sound_ret
  | |- sound _ throw => apply sound_throw
  | |- sound _ spin => apply sound_spin
  | |- sound _ getAppliedJobs => apply sound_getAppliedJobs
  | |- sound _ (writeAppliedJobs (failedRecord jd)) => apply sound_writeRecord, K_failed
  | |- sound _ (writeAppliedJobs (succeededRecord jd)) => apply sound_writeRecord, K_succeeded
  | |- sound _ (pageOp _ _) => apply sound_pageOp; [apply K_inner; reflexivity | discriminate]
  | |- sound _ (pageGet _ _) => apply sound_pageGet; [apply K_inner; reflexivity | discriminate]
  | |- sound _ (log _) => apply sound_log, K_inner; reflexivity
  | |- sound _ (if ?b then _ else _) => destruct b
  | |- sound _ (match ?x with _ => _ end) => destruct x
  end.

Ltac inside_auto := repeat inside_step; auto.

Lemma inside_closeApply c confirm : sound K (closeApply c confirm).
Proof. unfold closeApply. inside_auto. Qed.

Lemma inside_loadJobDetails l : sound K (loadJobDetails l).
Proof. unfold loadJobDetails. inside_auto. Qed.

Lemma inside_logSkip ledger d r : sound K (logSkip ledger d r).
Proof. unfold logSkip. inside_auto. Qed.

Lemma inside_stepping fuel steps i p : sound K (stepping fuel steps jd i p).
Proof.
  revert i p. induction fuel as [|fuel IH]; intros i p; simpl; [apply sound_spin|].
  pose proof inside_closeApply. unfold advance. inside_auto.
Qed.

Lemma inside_startWizard fuel l : sound K (startWizard fuel l jd).
Proof.
  unfold startWizard, selectResumeAndStep, complete.
  pose proof inside_closeApply. pose proof inside_stepping.
  inside_auto.
Qed.

End Inside.

Section ListingRecords.

Lemma inner_recordsFor t c e : inner e = true -> recordsFor t c e = true.
Proof. destruct e; simpl; intros H; try reflexivity; discriminate H. Qed.

Lemma inner_notListingClick e : inner e = true -> notListingClick e = true.
Proof. destruct e; simpl; intros H; try reflexivity; discriminate H. Qed.

Lemma recordsFor_failed d ledger :
  recordsFor (text (d_title d)) (text (d_company d)) (WriteFile (ledger ++ [failedRecord d])) = true.
Proof.
  unfold recordsFor. rewrite rev_unit. unfold sameJob, failedRecord. simpl.
  rewrite !String.eqb_refl. reflexivity.
Qed.

Lemma recordsFor_succeeded d ledger :
  recordsFor (text (d_title d)) (text (d_company d)) (WriteFile (ledger ++ [succeededRecord d])) = true.
Proof.
  unfold recordsFor. rewrite rev_unit. unfold sameJob, succeededRecord. simpl.
  rewrite !String.eqb_refl. reflexivity.
Qed.

Lemma loadJobDetails_gives l d st st' a :
  l_details l = Gives (Some d) -> loadJobDetails l st = (st', Ret a) -> a = Some d.
Proof.
  intros H. unfold loadJobDetails, pageOp, pageGet, log, emit, bind, ret, throw.
  rewrite H. destruct (l_waitDetails l); cbn; congruence.
Qed.

Lemma sound_applyForJob_records fuel l o d :
  l_details l = Gives (Some d) ->
  sound (recordsFor (text (d_title d)) (text (d_company d))) (applyForJob fuel l o).
Proof.
  intros H. unfold applyForJob.
  apply sound_bind; [apply sound_pageOp; [reflexivity | discriminate]|].
  intros _. apply (sound_bind_ret _ (fun a => a = Some d)).
  - intros st st' a. apply loadJobDetails_gives. exact H.
  - apply inside_loadJobDetails. apply inner_recordsFor.
  - intros a ->. apply sound_bind; [apply sound_getAppliedJobs|].
    intros ledger. destruct (shouldApply d ledger o).
    + apply inside_startWizard;
        [apply inner_recordsFor | apply recordsFor_failed | apply recordsFor_succeeded].
    + apply inside_logSkip. apply inner_recordsFor.
Qed.

Lemma persistsAll_records t c l evs l' :
  persistsAll l evs l' ->
  forallb (recordsFor t c) evs = true ->
  exists added, l' = l ++ added /\ Forall (fun r => sameJob t c r = true) added.
Proof.
  induction 1 as [l | l r evs l' _ IH | l e evs l' _ _ IH]; simpl; intros K.
  - exists []. rewrite app_nil_r. auto.
  - apply andb_true_iff in K. destruct K as (Kr & K).
    rewrite rev_unit in Kr.
    destruct (IH K) as (added & -> & F). exists (r :: added).
    rewrite <- app_assoc. auto.
  - apply andb_true_iff in K. destruct K as (_ & K). exact (IH K).
Qed.

Lemma accept_complete d ledger o :
  shouldApply d ledger o = Accept ->
  present (d_title d) = true /\ present (d_company d) = true /\
  present (d_description d) = true.
Proof.
  unfold shouldApply.
  destruct (present (d_title d)), (present (d_company d)), (present (d_description d));
    simpl; auto; discriminate.
Qed.

(** Every record that a listing adds to the ledger carries the title and
    the company of that listing; and once a listing has added a record,
    screening the same details against the ledger, however it has grown
    since, answers already-applied whatever the options: the listing is not
    applied to again. *)
Theorem records_carry_the_listing (fuel : nat) (l : listingEnv)
    (o : option IApplyForJobOptions) (st : state) (d : JobDetails) :
  l_details l = Gives (Some d) ->
  exists added,
    appliedJobs (fst (applyForJob fuel l o st)) = appliedJobs st ++ added /\
    Forall (fun r => title r = text (d_title d) /\ company r = text (d_company d)) added /\
    (added <> [] ->
     forall more o',
       shouldApply d (appliedJobs (fst (applyForJob fuel l o st)) ++ more) o'
       = Skip AlreadyAppliedInLedger).
Proof.
  intros H.
  destruct (sound_applyForJob_records fuel l o d H st) as (evs & T & K & P).
  destruct (persistsAll_records _ _ _ _ _ P K) as (added & E & F).
  exists added. split; [exact E|]. split.
  - eapply Forall_impl; [|exact F]. intros r S. unfold sameJob in S.
    apply andb_true_iff in S. destruct S as (S1 & S2).
    split; apply String.eqb_eq; assumption.
  - intros Hne more o'.
    assert (A : accepted l o st).
    { assert (D : accepted l o st \/ ~ accepted l o st).
      { unfold accepted.
        destruct (l_click l); [|right; intros (X & _); discriminate X].
        destruct (l_waitDetails l); [|right; intros (_ & X & _); discriminate X].
        rewrite H. destruct (shouldApply d (appliedJobs st) o) eqn:S.
        - left. repeat split. exists d. auto.
        - right. intros (_ & _ & d' & X & Y). injection X as <-. congruence. }
      destruct D as [D|D]; [exact D|]. exfalso.
      destruct (applyForJob_not_accepted fuel l o st D) as (evs' & E' & _).
      rewrite E' in E. cbn [append appliedJobs] in E.
      rewrite <- (app_nil_r (appliedJobs st)) in E at 1.
      apply app_inv_head in E. subst added. apply Hne. reflexivity. }
    destruct A as (_ & _ & d' & X & Y). rewrite H in X. injection X as <-.
    destruct (accept_complete _ _ _ Y) as (Ct & Cc & Cd).
    rewrite (shouldApply_complete d _ o' Ct Cc Cd).
    destruct added as [|r added]; [destruct (Hne eq_refl)|].
    assert (I : exists a, findApplied (appliedJobs (fst (applyForJob fuel l o st)) ++ more)
                            (text (d_title d)) (text (d_company d)) = Some a).
    { apply findApplied_in. exists r. rewrite E.
      inversion F as [|? ? S _]; subst. unfold sameJob in S.
      apply andb_true_iff in S. destruct S as (S1 & S2).
      apply String.eqb_eq in S1. apply String.eqb_eq in S2.
      repeat split; auto. rewrite !in_app_iff. left. right. left. reflexivity. }
    destruct I as (a & ->). reflexivity.
Qed.

End ListingRecords.

Section ListingClaims.

(** [applyForJob] touches the apply control and the ledger only for a
    listing that opened, whose details were read and that screening
    accepted: for any other listing it returns or rejects with the ledger
    and the file as they were, no write and no click on the apply control. *)
Theorem screening_gates_the_wizard (fuel : nat) (l : listingEnv)
    (o : option IApplyForJobOptions) (st : state) :
  ~ accepted l o st ->
  exists evs,
    fst (applyForJob fuel l o st) = append st evs /\
    ~ In (Click jobApply) evs /\ written evs = [] /\
    snd (applyForJob fuel l o st) <> Spins.
Proof. apply applyForJob_not_accepted. Qed.

Lemma applyForJob_clicks_once fuel l o st :
  exists evs,
    trace (fst (applyForJob fuel l o st)) = trace st ++ ClickListing (l_handle l) :: evs /\
    forallb notListingClick evs = true.
Proof.
  unfold applyForJob. unfold bind at 1. unfold pageOp at 1. unfold bind at 1, emit at 1.
  destruct (l_click l); [|exists []; split; reflexivity].
  cbn [ret].
  match goal with |- context [fst (?m ?s)] => set (rest := m); set (st1 := s) end.
  assert (S : sound notListingClick rest).
  { subst rest.
    assert (forall jd, sound notListingClick (startWizard fuel l jd))
      by (intros jd; apply inside_startWizard;
          [apply inner_notListingClick | reflexivity | reflexivity]).
    assert (forall ledger d r, sound notListingClick (logSkip ledger d r))
      by (intros; apply inside_logSkip, inner_notListingClick).
    apply sound_bind; [apply inside_loadJobDetails, inner_notListingClick|].
    intros [d|]; [|apply sound_log; reflexivity].
    apply sound_bind; [apply sound_getAppliedJobs|]. intros ledger.
    destruct (shouldApply d ledger o); auto. }
  destruct (S st1) as (evs & T & K & _). exists evs. split; [|exact K].
  rewrite T. subst st1. cbn [trace]. rewrite <- app_assoc. reflexivity.
Qed.

Lemma error_handler_returns c st :
  exists evs,
    (log ErrorOnApplyForJob ;; detached (closeApply c true)) st = (append st evs, Ret tt) /\
    clicked evs = [].
Proof.
  destruct c as [[|] [|] [|] [|]];
    unfold closeApply, detached, pageOp, log, emit, bind, ret, throw, append;
    cbn; rewrite <- ?app_assoc; eexists; split; reflexivity.
Qed.

Lemma notListingClick_count evs :
  forallb notListingClick evs = true -> clicked evs = [].
Proof.
  intros H. unfold clicked.
  rewrite (pick_none _ notListingClick evs); [reflexivity | | exact H].
  intros [] E; try reflexivity. discriminate E.
Qed.

Lemma bind_tryCatch {A B} (m h : M A) (f : A -> M B) (st : state) :
  bind (tryCatch m h) f st =
  match m st with
  | (s, Ret a) => f a s
  | (s, Threw) => bind h f s
  | (s, Spins) => (s, Spins)
  end.
Proof.
  unfold bind, tryCatch. destruct (m st) as [s [a| |]]; reflexivity.
Qed.

Lemma bind_returned {A B} (m : M A) (f : A -> M B) (st s : state) (a : A) :
  m st = (s, Ret a) -> bind m f st = f a s.
Proof. intros H. unfold bind. rewrite H. reflexivity. Qed.

Lemma applyForJobs_clicks fuel o jobs :
  forall st,
  exists evs k,
    trace (fst (applyForJobs fuel jobs o st)) = trace st ++ evs /\
    clicked evs = map l_handle (firstn k jobs) /\
    (snd (applyForJobs fuel jobs o st) = Ret tt -> clicked evs = map l_handle jobs) /\
    snd (applyForJobs fuel jobs o st) <> Threw.
Proof.
  induction jobs as [|job jobs IH]; intros st.
  - exists [], 0%nat. simpl. rewrite app_nil_r. repeat split; auto. discriminate.
  - cbn [applyForJobs]. rewrite bind_tryCatch.
    destruct (applyForJob_clicks_once fuel job o st) as (e1 & T1 & K1).
    apply notListingClick_count in K1.
    destruct (applyForJob fuel job o st) as [st1 [[]| |]]; cbn [fst] in T1.
    + destruct (IH st1) as (e2 & k & T2 & L2 & R2 & N2).
      exists ((ClickListing (l_handle job) :: e1) ++ e2), (S k).
      rewrite T2, T1, <- app_assoc.
      unfold clicked in *. rewrite pick_app. cbn [pick]. rewrite K1.
      cbn [app firstn map]. split; [reflexivity|].
      split; [f_equal; exact L2|]. split; [|exact N2].
      intros X. f_equal. exact (R2 X).
    + destruct (error_handler_returns (l_closeError job) st1) as (eh & Hh & Kh).
      rewrite (bind_returned _ _ _ _ _ Hh).
      destruct (IH (append st1 eh)) as (e2 & k & T2 & L2 & R2 & N2).
      exists ((ClickListing (l_handle job) :: e1) ++ eh ++ e2), (S k).
      rewrite T2. cbn [append trace]. rewrite T1, <- !app_assoc.
      unfold clicked in *. rewrite !pick_app. cbn [pick]. rewrite K1, Kh.
      cbn [app firstn map]. split; [reflexivity|].
      split; [f_equal; exact L2|]. split; [|exact N2].
      intros X. f_equal. exact (R2 X).
    + exists (ClickListing (l_handle job) :: e1), 1%nat. cbn [fst snd]. rewrite T1.
      unfold clicked in *. cbn [pick]. rewrite K1. cbn [firstn map]. rewrite ?firstn_O.
      repeat split; discriminate.
Qed.

(** The listings of a page are worked through one by one, in their order,
    whatever happens in each: the loop over the listings never rejects;
    the element handles it clicks are those of the first listings of the
    page, in order and each once, and those of all the listings when it
    returns. *)
Theorem listings_are_isolated (fuel : nat) (o : option IApplyForJobOptions)
    (jobs : list listingEnv) (st : state) :
  exists evs k,
    trace (fst (applyForJobs fuel jobs o st)) = trace st ++ evs /\
    clicked evs = map l_handle (firstn k jobs) /\
    (snd (applyForJobs fuel jobs o st) = Ret tt -> clicked evs = map l_handle jobs) /\
    snd (applyForJobs fuel jobs o st) <> Threw.
Proof. apply applyForJobs_clicks. Qed.

End ListingClaims.

(** * When screening accepts *)

Section Acceptance.

Lemma prefix_iff (t s : string) :
  String.prefix t s = true <-> exists after, s = (t ++ after)%string.
Proof.
  revert s. induction t as [|a t IH]; intros [|b s]; simpl.
  - split; eauto.
  - split; eauto.
  - split; [discriminate | intros (x & H); discriminate H].
  - destruct (ascii_dec a b) as [<-|N].
    + rewrite IH. split; intros (x & H); exists x; [rewrite H | injection H]; auto.
    + split; [discriminate | intros (x & H); injection H; intros _ E; destruct (N (eq_sym E))].
Qed.

Lemma includes_iff (s t : string) :
  Str.includes s t = true <-> exists before after, s = (before ++ t ++ after)%string.
Proof.
  induction s as [|c s IH]; cbn [Str.includes]; rewrite orb_true_iff, prefix_iff.
  - split.
    + intros [(x & H)|H]; [exists EmptyString, x; exact H | discriminate H].
    + intros ([|? ?] & x & H); [left; exists x; exact H | discriminate H].
  - rewrite IH. split.
    + intros [(x & H)|(p & x & H)].
      * exists EmptyString, x. exact H.
      * exists (String c p), x. simpl. rewrite H. reflexivity.
    + intros ([|b p] & x & H).
      * left. exists x. exact H.
      * right. injection H as _ H. exists p, x. exact H.
Qed.

Lemma keywordOccurs_iff (description keyword : string) :
  keywordOccurs description keyword = true <-> occursIgnoringCase description keyword.
Proof. unfold keywordOccurs, occursIgnoringCase. apply includes_iff. Qed.

(** Screening accepts a listing exactly when its title, company and
    description are non-empty, no record of the ledger has its title and its
    company, its company is not in the blacklist when there is one (the
    names compared as they are), and, when description keywords are
    supplied, one of them, lower-cased by the host, is found somewhere in
    the description lower-cased by the host. *)
Theorem shouldApply_accept_iff (d : JobDetails) (ledger : list IAppliedJob)
    (o : option IApplyForJobOptions) :
  shouldApply d ledger o = Accept <->
  (present (d_title d) = true /\ present (d_company d) = true /\
   present (d_description d) = true) /\
  (~ exists a, In a ledger /\ title a = text (d_title d) /\ company a = text (d_company d)) /\
  (forall names, optBind o blackListCompanies = Some names ->
                 ~ In (text (d_company d)) names) /\
  (forall keywords, optBind o descriptionKeywords = Some keywords ->
                    exists k, In k keywords /\ occursIgnoringCase (text (d_description d)) k).
Proof.
  split.
  - intros A. destruct (accept_complete _ _ _ A) as (Ct & Cc & Cd).
    rewrite (shouldApply_complete d ledger o Ct Cc Cd) in A.
    split; [auto|]. split; [|split].
    + rewrite findApplied_in. intros (a & F). rewrite F in A. discriminate A.
    + intros names Hn Hin. destruct (findApplied _ _ _); [discriminate A|].
      unfold isBlacklisted, arrayIncludes in A. destruct o as [o|]; [|discriminate Hn].
      simpl in Hn. rewrite Hn in A.
      assert (X : existsb (String.eqb (text (d_company d))) names = true)
        by (apply existsb_exists; exists (text (d_company d)); split;
            [exact Hin | apply String.eqb_refl]).
      rewrite X in A. discriminate A.
    + intros keywords Hk. destruct (findApplied _ _ _); [discriminate A|].
      destruct (isBlacklisted _ _); [discriminate A|].
      unfold keywordMismatch in A. destruct o as [o|]; [|discriminate Hk].
      simpl in Hk. rewrite Hk in A.
      destruct (existsb (keywordOccurs (text (d_description d))) keywords) eqn:X;
        [|discriminate A].
      apply existsb_exists in X. destruct X as (k & Hin & Ho).
      exists k. split; [exact Hin | apply keywordOccurs_iff; exact Ho].
  - intros ((Ct & Cc & Cd) & Hl & Hb & Hk).
    rewrite (shouldApply_complete d ledger o Ct Cc Cd).
    destruct (findApplied _ _ _) as [a|] eqn:F.
    + exfalso. apply Hl. apply findApplied_in. eauto.
    + assert (B : isBlacklisted o (text (d_company d)) = false).
      { unfold isBlacklisted, arrayIncludes. destruct o as [o|]; [|reflexivity].
        destruct (blackListCompanies o) as [names|] eqn:N; [|reflexivity].
        destruct (existsb _ names) eqn:X; [|reflexivity].
        apply existsb_exists in X. destruct X as (x & Hin & E).
        apply String.eqb_eq in E. subst x. destruct (Hb names N Hin). }
      rewrite B.
      assert (M : keywordMismatch o (text (d_description d)) = false).
      { unfold keywordMismatch. destruct o as [o|]; [|reflexivity].
        destruct (descriptionKeywords o) as [keywords|] eqn:N; [|reflexivity].
        destruct (Hk keywords N) as (k & Hin & Ho).
        apply keywordOccurs_iff in Ho.
        assert (X : existsb (keywordOccurs (text (d_description d))) keywords = true)
          by (apply existsb_exists; eauto).
        rewrite X. reflexivity. }
      rewrite M. reflexivity.
Qed.

End Acceptance.

(** * More on the run and on the stepping loop *)

Section RunEdges.

Lemma stepping_turn_nan fuel steps jd i p st :
  steps i = okStep (Text NaN) ->
  stepping (S fuel) steps jd i (Num p) st = (append st turnEvents, Ret NaN).
Proof.
  intros H. cbn [stepping]. rewrite H.
  unfold okStep, advance, pageOp, pageGet, emit, bind, ret, append.
  cbn. rewrite <- !app_assoc. reflexivity.
Qed.

(** When the first reading of the stepping loop is not a number, or is more
    than 100, the driver leaves the loop after that one turn and returns:
    no record is written, no outcome is logged and the dialog is not
    closed. *)
Theorem overshoot_leaves_no_record (jd : JobDetails) (first : Z) (r : ariaValue)
    (steps : nat -> stepEnv) (extra : nat) (st : state) :
  first <> 0 ->
  overshoots r ->
  steps 0%nat = okStep r ->
  startWizard (S extra) (okListing jd (Text (Num first)) steps) jd st
  = (append st (entryEvents ++ resumeEvents ++ turnEvents), Ret tt) /\
  written (entryEvents ++ resumeEvents ++ turnEvents) = [] /\
  terminals (entryEvents ++ resumeEvents ++ turnEvents) = [] /\
  ~ In (Click jobApplyClose) (entryEvents ++ resumeEvents ++ turnEvents).
Proof.
  intros Hf Ho Hs. split; [|repeat split; cbn; intuition discriminate].
  rewrite startWizard_ok. apply Z.eqb_neq in Hf. rewrite Hf. unfold bind.
  destruct Ho as [-> | (v & -> & Hv)].
  - rewrite (stepping_turn_nan _ _ _ _ _ _ Hs), append_append, <- app_assoc. reflexivity.
  - rewrite (stepping_turn _ _ _ _ v _ _ Hs), append_append, <- app_assoc.
    assert (E0 : (negb (v =? 0) && (v =? 0)) = false) by (destruct (v =? 0); reflexivity).
    assert (E1 : (v <? 100) = false) by (apply Z.ltb_ge; lia).
    assert (E2 : (v =? 100) = false) by (apply Z.eqb_neq; lia).
    rewrite E0, E1. unfold complete, strictEq. rewrite E2. reflexivity.
Qed.

Lemma overshoot_leaves_no_record_witness :
  startWizard 1 (okListing apiDev (Text (Num 10)) (fun _ => okStep (Text (Num 150))))
              apiDev loadedEmpty
  = (append loadedEmpty (entryEvents ++ resumeEvents ++ turnEvents), Ret tt).
Proof.
  apply (overshoot_leaves_no_record apiDev 10 (Text (Num 150))
           (fun _ => okStep (Text (Num 150))) 0 loadedEmpty).
  - discriminate.
  - right. exists 150. split; [reflexivity | reflexivity].
  - reflexivity.
Defined.

Lemma stepping_idle_turn fuel steps jd i st :
  idle (steps i) ->
  stepping (S fuel) steps jd i (Num 0) st =
  stepping fuel steps jd (S i) (Num 0) (append st turnEvents).
Proof.
  intros (A & B & C & D). cbn [stepping].
  unfold advance, pageOp, pageGet, emit, bind, ret, append.
  rewrite A, C, D. destruct B as [-> | ->];
    cbn -[stepping]; rewrite <- !app_assoc; reflexivity.
Qed.

(** When the progress bar gives no value, or 0, at every turn (and the page
    answers), the stepping loop is still running after any number of turns,
    one reading per turn, with no record written and no outcome logged. *)
Theorem stepping_without_progress (jd : JobDetails) (steps : nat -> stepEnv) :
  (forall k, idle (steps k)) ->
  forall fuel i st,
  exists evs,
    stepping fuel steps jd i (Num 0) st = (append st evs, Spins) /\
    written evs = [] /\ terminals evs = [] /\ readings evs = fuel.
Proof.
  intros H. induction fuel as [|fuel IH]; intros i st.
  - exists []. rewrite append_nil. repeat split.
  - rewrite stepping_idle_turn by apply H.
    destruct (IH (S i) (append st turnEvents)) as (evs & E & W & T & R).
    exists (turnEvents ++ evs). rewrite E, append_append.
    split; [reflexivity|]. unfold written, terminals, readings in *.
    rewrite !pick_app, W, T, length_app, R. repeat split.
Qed.

Lemma stepping_without_progress_witness :
  exists evs,
    stepping 4 (fun _ => okStep Falsy) apiDev 0 (Num 0) loadedEmpty
    = (append loadedEmpty evs, Spins) /\
    written evs = [] /\ terminals evs = [] /\ readings evs = 4%nat.
Proof.
  apply (stepping_without_progress apiDev (fun _ => okStep Falsy)).
  intros k. repeat split. left. reflexivity.
Defined.

End RunEdges.

(** * How much a listing adds to the ledger *)

Section Growth.

Lemma grew_refl n st : grew n st st.
Proof. exists []. rewrite app_nil_r. split; [reflexivity | simpl; lia]. Qed.

Lemma grew_same n st st' : appliedJobs st' = appliedJobs st -> grew n st st'.
Proof. intros H. exists []. rewrite app_nil_r. split; [exact H | simpl; lia]. Qed.

Lemma grew_trans n m st1 st2 st3 :
  grew n st1 st2 -> grew m st2 st3 -> grew (n + m) st1 st3.
Proof.
  intros (a & Ea & La) (b & Eb & Lb). exists (a ++ b).
  rewrite Eb, Ea, app_assoc, length_app. split; [reflexivity | lia].
Qed.

Lemma grew_weaken n m st st' : (n <= m)%nat -> grew n st st' -> grew m st st'.
Proof. intros H (a & E & L). exists a. split; [exact E | lia]. Qed.

Lemma stepping_grows fuel steps jd :
  forall i z st,
    z < 100 ->
    appliedJobs (fst (stepping fuel steps jd i (Num z) st)) = appliedJobs st \/
    (appliedJobs (fst (stepping fuel steps jd i (Num z) st))
     = appliedJobs st ++ [failedRecord jd] /\
     forall pn, snd (stepping fuel steps jd i (Num z) st) = Ret pn ->
                strictEq pn (Num 100) = false).
Proof.
  induction fuel as [|fuel IH]; intros i z st Hz; [left; reflexivity|].
  cbn [stepping]. destruct (steps i) as [wb rd [c1 c2 c3 c4] wp cp].
  unfold advance, closeApply, pageOp, pageGet, log, emit, detached, writeAppliedJobs,
    bind, ret, throw, notEq, strictEq, lessThan.
  cbn [s_waitBar s_read s_close s_waitPrimary s_clickPrimary
       c_wait c_click c_waitConfirm c_clickConfirm].
  destruct wb; [|left; reflexivity].
  destruct rd as [|[|[v|]]]; cbn -[stepping Z.eqb Z.ltb].
  - left. reflexivity.
  - destruct wp; [|left; reflexivity]. destruct cp; [|left; reflexivity].
    cbn -[stepping Z.eqb Z.ltb].
    assert (L : (z <? 100) = true) by (apply Z.ltb_lt; exact Hz). rewrite L.
    match goal with |- context [stepping fuel steps jd (S i) (Num z) ?s] =>
      destruct (IH (S i) z s Hz) as [E|(E & P)] end; [left | right; split; [|exact P]];
      rewrite E; reflexivity.
  - destruct (negb (v =? 0) && (v =? z)) eqn:T; cbn -[stepping Z.eqb Z.ltb].
    + right. assert (N : (z =? 100) = false) by (apply Z.eqb_neq; lia).
      destruct c1, c2, c3, c4; cbn; (split; [reflexivity|]);
        intros pn H; try discriminate H; injection H as <-; exact N.
    + destruct wp; [|left; reflexivity]. destruct cp; [|left; reflexivity].
      cbn -[stepping Z.eqb Z.ltb].
      destruct (v <? 100) eqn:L; [|left; reflexivity].
      apply Z.ltb_lt in L.
      match goal with |- context [stepping fuel steps jd (S i) (Num v) ?s] =>
        destruct (IH (S i) v s L) as [E|(E & P)] end; [left | right; split; [|exact P]];
        rewrite E; reflexivity.
  - destruct wp; [|left; reflexivity]. destruct cp; left; reflexivity.
Qed.

Lemma selectResumeAndStep_phases fuel l jd :
  selectResumeAndStep fuel l jd
  = (selectResume l jd ;;
     porcentNumber <- stepping fuel (l_steps l) jd 0%nat (Num 0) ;;
     complete l jd porcentNumber).
Proof. reflexivity. Qed.

(** The resume selection never rejects; it leaves the ledger as it was
    when the three actions resolve and adds one record otherwise. *)
Lemma selectResume_grows l jd st :
  exists st1,
    selectResume l jd st = (st1, Ret tt) /\
    ((resumeSelected l /\ appliedJobs st1 = appliedJobs st) \/
     (~ resumeSelected l /\ appliedJobs st1 = appliedJobs st ++ [failedRecord jd])).
Proof.
  unfold resumeSelected, selectResume, closeApply, tryCatch, detached, pageOp, log, emit,
    writeAppliedJobs, bind, ret, throw.
  destruct (l_waitResume l), (l_clickResume l), (l_clickAfterResume l);
    try (cbn; eexists; split; [reflexivity|]; left; repeat split);
    destruct (l_closeNoResume l) as [[|] [|] [|] [|]]; cbn;
    eexists; (split; [reflexivity|]); right; (split; [|reflexivity]);
    intros (A & B & C); discriminate.
Qed.

Lemma complete_grows l jd pn st :
  grew 1 st (fst (complete l jd pn st)) /\
  (strictEq pn (Num 100) = false ->
   appliedJobs (fst (complete l jd pn st)) = appliedJobs st).
Proof.
  unfold complete, closeApply, detached, pageOp, log, emit, writeAppliedJobs, bind, ret, throw.
  destruct (strictEq pn (Num 100)).
  - split; [|discriminate].
    exists [succeededRecord jd].
    destruct (l_closeDone l) as [[|] [|] ? ?]; cbn; split; reflexivity || lia.
  - split; [apply grew_refl | reflexivity].
Qed.

Lemma loop_and_complete_grow fuel l jd st :
  grew 1 st (fst ((porcentNumber <- stepping fuel (l_steps l) jd 0%nat (Num 0) ;;
                   complete l jd porcentNumber) st)).
Proof.
  unfold bind.
  pose proof (stepping_grows fuel (l_steps l) jd 0%nat 0 st ltac:(lia)) as G.
  destruct (stepping fuel (l_steps l) jd 0%nat (Num 0) st) as [st2 [pn| |]];
    cbn [fst snd] in *.
  - destruct (complete_grows l jd pn st2) as (C1 & C2).
    destruct G as [E|(E & P)].
    + destruct C1 as (added & Ea & La). exists added. rewrite Ea, E. auto.
    + exists [failedRecord jd]. rewrite (C2 (P pn eq_refl)), E. simpl. auto.
  - destruct G as [E|(E & _)]; [apply grew_same; exact E|].
    exists [failedRecord jd]. simpl. auto.
  - destruct G as [E|(E & _)]; [apply grew_same; exact E|].
    exists [failedRecord jd]. simpl. auto.
Qed.

Lemma selectResumeAndStep_grows fuel l jd st :
  grew 2 st (fst (selectResumeAndStep fuel l jd st)) /\
  (resumeSelected l -> grew 1 st (fst (selectResumeAndStep fuel l jd st))).
Proof.
  rewrite selectResumeAndStep_phases.
  destruct (selectResume_grows l jd st) as (st1 & E & H).
  rewrite (bind_returned _ _ _ _ _ E).
  pose proof (loop_and_complete_grow fuel l jd st1) as G.
  destruct H as [(R & S)|(R & S)].
  - assert (G1 : grew 1 st (fst ((porcentNumber <- stepping fuel (l_steps l) jd 0%nat (Num 0) ;;
                                  complete l jd porcentNumber) st1))).
    { destruct G as (added & Ea & La). exists added. rewrite Ea, S. auto. }
    split; [apply (grew_weaken 1 2); [lia | exact G1] | intros _; exact G1].
  - split; [|intros X; destruct (R X)].
    apply (grew_trans 1 1 st st1); [|exact G].
    exists [failedRecord jd]. simpl. auto.
Qed.

Lemma startWizard_grows fuel l jd st :
  grew 2 st (fst (startWizard fuel l jd st)) /\
  (resumeSelected l -> grew 1 st (fst (startWizard fuel l jd st))).
Proof.
  unfold startWizard, tryCatch, closeApply, detached, pageOp, pageGet, log, emit,
    writeAppliedJobs, bind, ret, throw, strictEq.
  assert (Z0 : forall n st', appliedJobs st' = appliedJobs st -> grew n st st')
    by (intros; apply grew_same; assumption).
  assert (Z1 : forall st', appliedJobs st' = appliedJobs st ++ [failedRecord jd] ->
                           grew 1 st st')
    by (intros st' E; exists [failedRecord jd]; simpl; auto).
  assert (S : forall st', appliedJobs st' = appliedJobs st ->
                grew 2 st (fst (selectResumeAndStep fuel l jd st')) /\
                (resumeSelected l -> grew 1 st (fst (selectResumeAndStep fuel l jd st')))).
  { intros st' E. destruct (selectResumeAndStep_grows fuel l jd st') as (G2 & G1).
    unfold grew in *. rewrite E in *. auto. }
  destruct (l_clickApply l); [|cbn; split; [|intros _]; apply Z0; reflexivity].
  destruct (l_waitPrimary l); [|cbn; split; [|intros _]; apply Z0; reflexivity].
  destruct (l_clickPrimary l); [|cbn; split; [|intros _]; apply Z0; reflexivity].
  destruct (l_waitBar l); [|cbn; split; [|intros _]; apply Z0; reflexivity].
  destruct (l_read l) as [|[|[v|]]]; cbn -[selectResumeAndStep Z.eqb];
    try (split; [|intros _]; apply Z0; reflexivity);
    try (apply S; reflexivity).
  destruct (v =? 0); [|apply S; reflexivity].
  destruct (l_closeZero l) as [[|] [|] [|] [|]]; cbn;
    (split; [apply (grew_weaken 1 2); [lia|] | intros _]); apply Z1; reflexivity.
Qed.

Lemma applyForJob_accepted fuel l o st d :
  l_click l = true -> l_waitDetails l = true -> l_details l = Gives (Some d) ->
  shouldApply d (appliedJobs st) o = Accept ->
  applyForJob fuel l o st
  = startWizard fuel l d
      (append st [ClickListing (l_handle l); Log LoadingJobDetails;
                  WaitForSelector details; ReadDetails]).
Proof.
  intros A B C D.
  unfold applyForJob, loadJobDetails, pageOp, pageGet, log, emit, bind, ret, getAppliedJobs,
    append.
  rewrite A, B, C. cbn -[shouldApply startWizard]. rewrite D, <- !app_assoc. reflexivity.
Qed.

Lemma accepted_dec l o st : accepted l o st \/ ~ accepted l o st.
Proof.
  unfold accepted.
  destruct (l_click l); [|right; intros (X & _); discriminate X].
  destruct (l_waitDetails l); [|right; intros (_ & X & _); discriminate X].
  destruct (l_details l) as [|[d|]];
    try (right; intros (_ & _ & d' & X & _); discriminate X).
  destruct (shouldApply d (appliedJobs st) o) eqn:S.
  - left. repeat split. exists d. auto.
  - right. intros (_ & _ & d' & X & Y). injection X as <-. congruence.
Qed.

(** One call of [applyForJob] adds at most two records to the ledger, and
    at most one when the resume selection goes through. *)
Theorem listing_adds_at_most_two (fuel : nat) (l : listingEnv)
    (o : option IApplyForJobOptions) (st : state) :
  grew 2 st (fst (applyForJob fuel l o st)) /\
  (resumeSelected l -> grew 1 st (fst (applyForJob fuel l o st))).
Proof.
  destruct (accepted_dec l o st) as [(A & B & d & C & D)|N].
  - rewrite (applyForJob_accepted fuel l o st d A B C D).
    destruct (startWizard_grows fuel l d
                (append st [ClickListing (l_handle l); Log LoadingJobDetails;
                            WaitForSelector details; ReadDetails])) as (G2 & G1).
    exact (conj G2 G1).
  - destruct (applyForJob_not_accepted fuel l o st N) as (evs & E & _).
    rewrite E. split; [|intros _]; apply grew_same; reflexivity.
Qed.

End Growth.

(** * The queries of a call of [getJobs] *)

Section Queries.

Lemma bind_emit {B} (e : event) (f : unit -> M B) (st : state) :
  bind (emit e) f st = f tt (append st [e]).
Proof. reflexivity. Qed.

Lemma quiet_navigations evs : forallb quiet evs = true -> navigations evs = [].
Proof.
  intros H. unfold navigations. apply (pick_none _ quiet evs); [|exact H].
  intros [] E; try reflexivity. discriminate E.
Qed.

Lemma openQuery_navigates fuel e q st :
  exists evs,
    trace (fst (openQuery fuel e q st)) = trace st ++ evs /\
    navigations evs = [urlOf q].
Proof.
  unfold openQuery, log. rewrite !bind_emit.
  match goal with |- context [fst (?m ?s)] => set (rest := m); set (st1 := s) end.
  assert (S : sound quiet rest).
  { subst rest.
    assert (sound quiet (loadJobs e)) by (apply sound_loadJobs; reflexivity).
    pose proof sound_applyForJobs. sound_auto. }
  destruct (S st1) as (evs & T & K & _).
  exists ([Log (Opening (urlOf q)); Goto (urlOf q)] ++ evs). split.
  - rewrite T. subst st1. cbn [append trace]. rewrite <- !app_assoc. reflexivity.
  - unfold navigations in *. rewrite pick_app. cbn [pick].
    fold (navigations evs). rewrite (quiet_navigations evs K). reflexivity.
Qed.

Lemma openQuery_left fuel e q st :
  snd (openQuery fuel e q st) = Ret false -> q_jobs e = Gives None.
Proof.
  unfold openQuery, loadJobs, pageOp, pageGet, log, emit, bind, ret, throw.
  destruct (q_waitContainer e), (q_container e) as [|[|]], (q_scroll e),
    (q_jobs e) as [|[js|]]; cbn -[applyForJobs]; intros H;
    try discriminate H; try reflexivity;
    match type of H with context [applyForJobs ?f ?j ?o ?s] =>
      destruct (applyForJobs f j o s) as [s2 [[]| |]]; discriminate H end.
Qed.

Lemma openQueries_navigate fuel visit queries :
  forall j st,
  exists evs k,
    trace (fst (openQueries fuel visit j queries st)) = trace st ++ evs /\
    navigations evs = map urlOf (firstn k queries) /\
    (snd (openQueries fuel visit j queries st) = Ret tt ->
     (forall i, q_jobs (visit i) <> Gives None) ->
     navigations evs = map urlOf queries).
Proof.
  induction queries as [|q queries IH]; intros j st.
  - exists [], 0%nat. simpl. rewrite app_nil_r. auto.
  - cbn [openQueries]. rewrite bind_tryCatch.
    destruct (openQuery_navigates fuel (visit j) q st) as (e1 & T1 & N1).
    pose proof (openQuery_left fuel (visit j) q st) as L.
    destruct (openQuery fuel (visit j) q st) as [s [[|]| |]]; cbn [fst snd] in *.
    + destruct (IH (S j) s) as (e2 & k & T2 & N2 & F2).
      exists (e1 ++ e2), (S k). rewrite T2, T1, <- app_assoc.
      unfold navigations in *. rewrite pick_app, N1.
      split; [reflexivity|]. cbn [firstn map app].
      split; [f_equal; exact N2 | intros R H; f_equal; exact (F2 R H)].
    + exists e1, 1%nat. cbn [ret fst snd firstn map]. rewrite ?firstn_O.
      split; [exact T1|]. split; [exact N1|].
      intros _ H. destruct (H j (L eq_refl)).
    + rewrite (bind_returned _ _ s (append s [Log ErrorOnQuery]) true eq_refl).
      destruct (IH (S j) (append s [Log ErrorOnQuery])) as (e2 & k & T2 & N2 & F2).
      exists (e1 ++ [Log ErrorOnQuery] ++ e2), (S k).
      rewrite T2. cbn [append trace]. rewrite T1, <- !app_assoc.
      unfold navigations in *. rewrite !pick_app, N1.
      split; [reflexivity|]. cbn [firstn map app pick].
      split; [f_equal; exact N2 | intros R H; f_equal; exact (F2 R H)].
    + exists e1, 1%nat. cbn [firstn map]. rewrite ?firstn_O.
      split; [exact T1|]. split; [exact N1|]. discriminate.
Qed.

(** A call of [getJobs] navigates to the URLs of the queries in their
    order and to nothing else, each once, as far as it gets; it never
    rejects, an error in one query leaving the next ones to be opened; and
    when it returns it has navigated to all of them, provided the lookup of
    the listings always gave a list. *)
Theorem getJobs_opens_queries_in_order (fuel : nat) (visit : nat -> queryEnv)
    (queries : list IQuery) (st : state) :
  exists evs k,
    trace (fst (getJobs fuel visit queries st)) = trace st ++ evs /\
    navigations evs = map urlOf (firstn k queries) /\
    (snd (getJobs fuel visit queries st) = Ret tt ->
     (forall i, q_jobs (visit i) <> Gives None) ->
     navigations evs = map urlOf queries) /\
    snd (getJobs fuel visit queries st) <> Threw.
Proof.
  pose proof (safe_getJobs fuel visit queries st) as Safe.
  unfold getJobs, log in *. rewrite bind_emit in *.
  destruct (openQueries_navigate fuel visit queries 0%nat
              (append st [Log (OpeningQueries (List.length queries))]))
    as (evs & k & T & N & F).
  exists ([Log (OpeningQueries (List.length queries))] ++ evs), k.
  rewrite T. cbn [append trace]. rewrite <- app_assoc.
  split; [reflexivity|]. split; [|split; [|exact Safe]].
  - unfold navigations in *. rewrite pick_app. exact N.
  - intros R H. unfold navigations in *. rewrite pick_app. exact (F R H).
Qed.

End Queries.

(** * The pages of a run, counted *)

Section FourPages.

Lemma getJobs_round fuel visit queries st :
  exists evs,
    trace (fst (getJobs fuel visit queries st)) = trace st ++ evs /\
    rounds evs = 1%nat /\ pagesAnnounced evs = [].
Proof.
  unfold getJobs, log. rewrite bind_emit.
  destruct (costs_openQueries fuel visit queries 0%nat
              (append st [Log (OpeningQueries (List.length queries))]))
    as (evs & T & R & _ & P & _).
  exists ([Log (OpeningQueries (List.length queries))] ++ evs).
  rewrite T. cbn [append trace]. rewrite <- app_assoc. split; [reflexivity|].
  unfold rounds, pagesAnnounced in *. rewrite !pick_app, length_app, P.
  cbn [pick List.length app]. split; [lia | reflexivity].
Qed.

Lemma nextPage_there n page st :
  nextThere n -> nextPage n page st = (append st (nextEvents page), Ret (Tested true)).
Proof.
  destruct n as [b c w]. unfold nextThere. cbn [n_button n_click n_wait].
  intros (-> & -> & ->).
  unfold nextPage, tryCatch, pageGet, pageOp, log, emit, bind, ret, append, nextEvents.
  cbn. rewrite <- !app_assoc. reflexivity.
Qed.

Lemma pageLoop_rounds fuel env queries :
  (forall p, nextThere (r_next env p)) ->
  forall d page st,
    (page + d = 4)%nat ->
    snd (pageLoop fuel env queries page st) = Ret tt ->
    exists evs,
      trace (fst (pageLoop fuel env queries page st)) = trace st ++ evs /\
      rounds evs = S d /\ pagesAnnounced evs = seq (S page) (S d).
Proof.
  intros Hn. induction d as [|d IH]; intros page st Hd; rewrite pageLoop_body;
    unfold turn, bind;
    destruct (getJobs_round fuel (r_visit env page) queries st) as (a & Ta & Ra & Pa);
    pose proof (safe_getJobs fuel (r_visit env page) queries st) as Safe;
    destruct (getJobs fuel (r_visit env page) queries st) as [st1 [[]| |]];
    cbn [fst snd] in *; try discriminate; try (destruct (Safe eq_refl));
    rewrite (nextPage_there _ page st1 (Hn page)).
  - destruct (lt_dec (S page) 5) as [L|L]; [lia|]. intros _.
    exists (a ++ nextEvents page). cbn [fst append trace]. rewrite Ta, <- app_assoc.
    split; [reflexivity|]. unfold rounds, pagesAnnounced in *.
    rewrite !pick_app, length_app, Pa. cbn [pick nextEvents List.length app seq].
    rewrite Nat.add_1_r. split; [lia | reflexivity].
  - destruct (lt_dec (S page) 5) as [L|L]; [|lia]. intros R.
    destruct (IH (S page) (append st1 (nextEvents page)) ltac:(lia) R) as (b & Tb & Rb & Pb).
    exists (a ++ nextEvents page ++ b). rewrite Tb. cbn [append trace].
    rewrite Ta, <- !app_assoc. split; [reflexivity|].
    unfold rounds, pagesAnnounced in *.
    rewrite !pick_app, !length_app, Pa, Pb. cbn [pick nextEvents List.length app].
    rewrite Nat.add_1_r. split; [lia | reflexivity].
Qed.

(** When the next-page control is there at every turn, a run that returns
    has called [getJobs] exactly four times, the counter going from 1 to 5:
    the turn that would work on the fifth page is not made. *)
Theorem four_pages_when_next_is_there (fuel : nat) (env : runEnv) (queries : list IQuery)
    (content : list IAppliedJob) :
  (forall p, nextThere (r_next env p)) ->
  snd (init fuel env queries (initialState (Some content))) = Ret tt ->
  exists evs,
    trace (fst (init fuel env queries (initialState (Some content)))) = ReadFile :: evs /\
    rounds evs = 4%nat /\ pagesAnnounced evs = [2; 3; 4; 5]%nat.
Proof.
  intros Hn. rewrite init_loaded. intros R.
  destruct (pageLoop_rounds fuel env queries Hn 3 1%nat
              (mkState content (Some content) [ReadFile]) eq_refl R) as (evs & T & Rd & P).
  exists evs. auto.
Qed.

End FourPages.

(** * The records of a run *)

Section NamedRecords.

Lemma inner_namedRecords e : inner e = true -> namedRecords e = true.
Proof. destruct e; simpl; intros H; try reflexivity; discriminate H. Qed.

Lemma present_truthy o : present o = true -> Str.truthy (text o) = true.
Proof. destruct o; simpl; auto. Qed.

Lemma named_applyForJob fuel l o : sound namedRecords (applyForJob fuel l o).
Proof.
  unfold applyForJob.
  apply sound_bind; [apply sound_pageOp; [reflexivity | discriminate]|].
  intros _. apply sound_bind; [apply inside_loadJobDetails, inner_namedRecords|].
  intros [d|]; [|apply sound_log; reflexivity].
  apply sound_bind; [apply sound_getAppliedJobs|]. intros ledger.
  destruct (shouldApply d ledger o) eqn:S.
  - destruct (accept_complete _ _ _ S) as (Ct & Cc & _).
    apply present_truthy in Ct. apply present_truthy in Cc.
    apply inside_startWizard; [apply inner_namedRecords | |];
      intros led; unfold namedRecords; rewrite rev_unit; simpl; rewrite Ct, Cc; reflexivity.
  - apply inside_logSkip, inner_namedRecords.
Qed.

Lemma named_applyForJobs fuel js o : sound namedRecords (applyForJobs fuel js o).
Proof.
  induction js as [|j js IH]; simpl; [apply sound_ret|].
  apply sound_bind; [|intros; exact IH].
  apply sound_tryCatch; [apply named_applyForJob|].
  apply sound_bind; [apply sound_log; reflexivity|]. intros _.
  apply sound_detached, inside_closeApply, inner_namedRecords.
Qed.

Lemma named_openQueries fuel visit queries :
  forall j, sound namedRecords (openQueries fuel visit j queries).
Proof.
  induction queries as [|q queries IH]; intros j; simpl; [apply sound_ret|].
  assert (sound namedRecords (loadJobs (visit j))) by (apply sound_loadJobs; reflexivity).
  pose proof named_applyForJobs. unfold openQuery. sound_auto.
Qed.

Lemma named_turn fuel env queries page : sound namedRecords (turn fuel env queries page).
Proof.
  unfold turn, getJobs, nextPage. pose proof named_openQueries. sound_auto.
Qed.

Lemma named_pageLoop fuel env queries page :
  sound namedRecords (pageLoop fuel env queries page).
Proof.
  intros st. funelim (pageLoop fuel env queries page st);
    pose proof (named_turn fuel env queries page st) as T;
    match goal with E : turn _ _ _ _ _ = _ |- _ => rewrite E in T end;
    try exact T.
  eapply follows_trans; [exact T | assumption].
Qed.

Lemma persistsAll_named l evs l' :
  persistsAll l evs l' ->
  forallb namedRecords evs = true ->
  exists added,
    l' = l ++ added /\
    Forall (fun r => title r <> EmptyString /\ company r <> EmptyString) added.
Proof.
  induction 1 as [l | l r evs l' _ IH | l e evs l' _ _ IH]; simpl; intros K.
  - exists []. rewrite app_nil_r. auto.
  - apply andb_true_iff in K. destruct K as (Kr & K).
    rewrite rev_unit in Kr. apply andb_true_iff in Kr. destruct Kr as (K1 & K2).
    destruct (IH K) as (added & -> & F). exists (r :: added).
    rewrite <- app_assoc. split; [reflexivity|]. constructor; [|exact F].
    split; intros E; [rewrite E in K1 | rewrite E in K2]; discriminate.
  - apply andb_true_iff in K. destruct K as (_ & K). exact (IH K).
Qed.

(** Every record that a run adds to the ledger has a non-empty title and a
    non-empty company, whatever the page shows. *)
Theorem run_records_are_named (fuel : nat) (env : runEnv) (queries : list IQuery)
    (content : list IAppliedJob) :
  exists added,
    appliedJobs (fst (init fuel env queries (initialState (Some content))))
    = content ++ added /\
    Forall (fun r => title r <> EmptyString /\ company r <> EmptyString) added.
Proof.
  rewrite init_loaded.
  destruct (named_pageLoop fuel env queries 1%nat (mkState content (Some content) [ReadFile]))
    as (evs & _ & K & P).
  exact (persistsAll_named _ _ _ P K).
Qed.

End NamedRecords.

End Host.

(** * The service at work on ASCII text

    The statements below run the service with [Str.asciiLowerCase] for the
    host's lower-casing. *)


(** A keyword is found whatever its case and that of the description. *)
Example shouldApply_mixed_case :
  shouldApply Str.asciiLowerCase apiDev [] (Some (mkOptions None (Some ["GraphQL"; "aws"])))
  = Accept /\
  shouldApply Str.asciiLowerCase apiDev [] (Some (mkOptions None (Some ["GraphQL"; "Rust"])))
  = Skip KeywordMismatch.
Proof. split; reflexivity. Qed.

Lemma shouldApply_dedup_witness :
  shouldApply Str.asciiLowerCase apiDev [mkApplied "API Dev" "Acme" false] None
  = Skip AlreadyAppliedInLedger.
Proof.
  apply (proj1 (shouldApply_dedup Str.asciiLowerCase apiDev
                  [mkApplied "API Dev" "Acme" false] None eq_refl eq_refl eq_refl)).
  exists (mkApplied "API Dev" "Acme" false). simpl. auto.
Defined.

(** C5 as stated fails when the description is empty: the pair is in the
    ledger, and the answer is incomplete-details. *)
Lemma shouldApply_dedup_incomplete :
  (exists a, In a onceApplied /\ title a = text (d_title noDescription)
             /\ company a = text (d_company noDescription)) /\
  shouldApply Str.asciiLowerCase noDescription onceApplied None = Skip IncompleteDetails /\
  shouldApply Str.asciiLowerCase noDescription onceApplied None <> Skip AlreadyAppliedInLedger.
Proof.
  split; [|split; [reflexivity | discriminate]].
  exists (mkApplied "API Dev" "Acme" true). simpl. auto.
Qed.

(** The pair is compared as it is: another case is another job. *)
Example shouldApply_case_matters :
  shouldApply Str.asciiLowerCase
              (mkDetails (Some "api dev") (Some "Acme") (Some "Node/AWS role"))
              [mkApplied "API Dev" "Acme" true] None = Accept.
Proof. reflexivity. Qed.

Lemma shouldApply_accept_iff_witness :
  exists k, In k ["GraphQL"; "aws"] /\
            occursIgnoringCase Str.asciiLowerCase "Node/AWS role" k.
Proof.
  apply (proj2 (proj2 (proj2 (proj1 (shouldApply_accept_iff Str.asciiLowerCase apiDev []
           (Some (mkOptions (Some ["Toro"]) (Some ["GraphQL"; "aws"])))) eq_refl)))).
  reflexivity.
Defined.

Lemma screening_gates_the_wizard_witness :
  exists evs,
    fst (applyForJob Str.asciiLowerCase 3 toroListing toroBlacklisted loadedEmpty)
    = append loadedEmpty evs /\
    ~ In (Click jobApply) evs /\ written evs = [] /\
    snd (applyForJob Str.asciiLowerCase 3 toroListing toroBlacklisted loadedEmpty) <> Spins.
Proof.
  apply screening_gates_the_wizard.
  intros (_ & _ & d & D & S). injection D as <-. discriminate S.
Defined.

Lemma records_carry_the_listing_witness :
  exists added,
    appliedJobs (fst (applyForJob Str.asciiLowerCase 3 zeroListing None loadedEmpty))
    = appliedJobs loadedEmpty ++ added /\
    Forall (fun r => title r = "API Dev" /\ company r = "Acme") added.
Proof.
  destruct (records_carry_the_listing Str.asciiLowerCase 3 zeroListing None loadedEmpty
              apiDev eq_refl) as (added & E & F & _).
  exists added. split; assumption.
Defined.

Lemma listing_adds_at_most_two_witness :
  grew 1 loadedEmpty (fst (applyForJob Str.asciiLowerCase 3 zeroListing None loadedEmpty)).
Proof.
  apply (proj2 (listing_adds_at_most_two Str.asciiLowerCase 3 zeroListing None loadedEmpty)).
  repeat split.
Defined.

Lemma listings_are_isolated_witness :
  exists evs,
    trace (fst (applyForJobs Str.asciiLowerCase 3
                  [withHandle 7 toroListing; withHandle 3 zeroListing]
                  toroBlacklisted loadedEmpty))
    = trace loadedEmpty ++ evs /\
    clicked evs = [7; 3]%nat.
Proof.
  destruct (listings_are_isolated Str.asciiLowerCase 3 toroBlacklisted
              [withHandle 7 toroListing; withHandle 3 zeroListing] loadedEmpty)
    as (evs & k & T & _ & R & _).
  exists evs. split; [exact T | apply R; reflexivity].
Defined.

Lemma getJobs_opens_queries_in_order_witness :
  exists evs,
    trace (fst (getJobs Str.asciiLowerCase 3 (r_visit emptyPages 1)
                  [nodeQuery; reactQuery] loadedEmpty))
    = trace loadedEmpty ++ evs /\
    navigations evs = [nodeUrl; reactUrl].
Proof.
  destruct (getJobs_opens_queries_in_order Str.asciiLowerCase 3 (r_visit emptyPages 1)
              [nodeQuery; reactQuery] loadedEmpty) as (evs & k & T & _ & F & _).
  exists evs. split; [exact T|].
  apply F; [reflexivity | intros i; discriminate].
Defined.

Lemma ledger_append_only_witness :
  nth_error
    (appliedJobs (fst (init Str.asciiLowerCase 3 oneListing [nodeQuery]
                         (initialState (Some toroApplied)))))
    0 = Some (mkApplied "Backend Eng" "Toro" true) /\
  appliedJobs (fst (init Str.asciiLowerCase 3 oneListing [nodeQuery]
                      (initialState (Some toroApplied))))
  = [mkApplied "Backend Eng" "Toro" true; mkApplied "API Dev" "Acme" false] /\
  written (trace (fst (init Str.asciiLowerCase 3 oneListing [nodeQuery]
                         (initialState (Some toroApplied)))))
  = [[mkApplied "Backend Eng" "Toro" true; mkApplied "API Dev" "Acme" false]].
Proof.
  split; [|split; reflexivity].
  destruct (ledger_append_only Str.asciiLowerCase 3 oneListing [nodeQuery] toroApplied)
    as (evs & added & _ & _ & _ & H & _).
  apply H. reflexivity.
Defined.

Lemma next_page_error_stops_paging_witness :
  exists evs,
    pageLoop Str.asciiLowerCase 3 brokenPager [nodeQuery] 1 loadedEmpty
    = (append (fst (getJobs Str.asciiLowerCase 3 (r_visit brokenPager 1) [nodeQuery]
                      loadedEmpty))
              (evs ++ [Log ErrorNextPage]), Ret tt) /\
    navigations evs = [] /\ rounds evs = 0%nat /\ written evs = [].
Proof.
  apply (proj2 (next_page_error_stops_paging Str.asciiLowerCase 3 brokenPager [nodeQuery])
               1%nat).
  - reflexivity.
  - left. reflexivity.
Defined.

(** With the control always there and no listing, the counter ends at 5
    after four calls of [getJobs]. *)
Example always_next_four_rounds :
  pagesAnnounced (trace (fst (init Str.asciiLowerCase 0 emptyPages [nodeQuery]
                                (initialState (Some [])))))
  = [2; 3; 4; 5]%nat /\
  rounds (trace (fst (init Str.asciiLowerCase 0 emptyPages [nodeQuery]
                        (initialState (Some [])))))
  = 4%nat.
Proof. split; reflexivity. Qed.

(** C6 fails on the code: after the click on the next-page control and
    the wait for the results, the loop of [init] calls [getJobs] again,
    which builds the URL of every query and navigates to it again, the
    first query first; the turns of the page loop alternate the queries. *)
Lemma next_page_navigates_again :
  firstn 5 (afterLog isGoingToPage
              (trace (fst (init Str.asciiLowerCase 0 emptyPages [nodeQuery; reactQuery]
                             (initialState (Some []))))))
  = [Click paginationNextBtn; WaitForSelector container;
     Log (OpeningQueries 2); Log (Opening nodeUrl); Goto nodeUrl] /\
  navigations (trace (fst (init Str.asciiLowerCase 0 emptyPages [nodeQuery; reactQuery]
                             (initialState (Some [])))))
  = [nodeUrl; reactUrl; nodeUrl; reactUrl; nodeUrl; reactUrl; nodeUrl; reactUrl].
Proof. split; reflexivity. Qed.

Lemma four_pages_when_next_is_there_witness :
  exists evs,
    trace (fst (init Str.asciiLowerCase 2 emptyPages [nodeQuery; reactQuery]
                  (initialState (Some []))))
    = ReadFile :: evs /\
    rounds evs = 4%nat /\ pagesAnnounced evs = [2; 3; 4; 5]%nat.
Proof.
  apply four_pages_when_next_is_there.
  - intros p. repeat split.
  - reflexivity.
Defined.
